(** * board_util.py: coordinate codec, transposition table and alpha-beta search

    A shallow embedding of [board_util.py].  Python integers are [Z], the
    dictionary of the transposition table is a [gmap Z Z], a raised exception
    is the [Raise] outcome of the [py] type, and the Go board (an object the
    module only calls into) is an interface, the class [GoBoard]. *)

From Stdlib Require Import ZArith List String Ascii DecimalString DecimalZ
  DecimalPos Lia Bool.
From stdpp Require Import gmap strings list fin_maps.
Import ListNotations.
Open Scope Z_scope.
Set Warnings "-register-all".

(** ** Python outcomes *)

(** The exceptions the module can raise, directly or through an indexing. *)
Inductive exn : Type :=
| AssertionError
| ValueError
| IndexError
| ZeroDivisionError.

(** The outcome of a call: a returned value or a raised exception. *)
Inductive py (A : Type) : Type :=
| Ret (a : A)
| Raise (e : exn).
Arguments Ret {A} a.
Arguments Raise {A} e.

#[global] Instance py_ret : MRet py := fun A a => Ret a.

#[global] Instance py_bind : MBind py := fun A B k m =>
  match m with
  | Ret a => k a
  | Raise e => Raise e
  end.

(** [l[i]] on a Python list: a negative index counts from the end, an index
    out of range raises IndexError. *)
Definition py_index {A : Type} (l : list A) (i : Z) : py A :=
  let n := Z.of_nat (length l) in
  let k := if i <? 0 then i + n else i in
  if (0 <=? k) && (k <? n)
  then match nth_error l (Z.to_nat k) with
       | Some x => Ret x
       | None => Raise IndexError
       end
  else Raise IndexError.

(** [s[i]] on a Python string, with the same rule for negative indices. *)
Definition str_index (s : string) (i : Z) : py ascii :=
  py_index (list_ascii_of_string s) i.

(** [str(n)] for an integer: its decimal digits, with a sign when negative. *)
Definition str (n : Z) : string := NilZero.string_of_int (Z.to_int n).

(** [range(n)] for a natural bound. *)
Definition range (n : nat) : list nat := seq 0 n.

(** A [for] loop whose body may raise: the state is threaded through the
    items in order and the first exception ends the loop. *)
Fixpoint py_for {A S : Type} (items : list A) (body : A -> S -> py S) (s : S)
  : py S :=
  match items with
  | [] => Ret s
  | x :: rest => s' ← body x s; py_for rest body s'
  end.

(** ** Constants *)

Definition EMPTY : Z := 0.
Definition BLACK : Z := 1.
Definition WHITE : Z := 2.
Definition BORDER : Z := 3.
Definition INFINITY : Z := 1000000.
Definition NULLPOINT : Z := 0.
Definition MAXSIZE : Z := 25.

(** [PASS = None]: a move or a point is an [option], [None] being PASS. *)
Definition PASS {A : Type} : option A := None.

Definition is_black_white (color : Z) : bool :=
  (color =? BLACK) || (color =? WHITE).

(** ** Coordinate codec *)

Definition coord_to_point (row col boardsize : Z) : py Z :=
  if negb (1 <=? row) then Raise AssertionError
  else if negb (row <=? boardsize) then Raise AssertionError
  else if negb (1 <=? col) then Raise AssertionError
  else if negb (col <=? boardsize) then Raise AssertionError
  else
    let NS := boardsize + 1 in
    Ret (NS * row + col).

(** [divmod(point, NS)]: floor division and the remainder with the sign of
    the divisor, which is what [Z.div] and [Z.modulo] compute; a zero divisor
    raises. *)
Definition divmod (a b : Z) : py (Z * Z) :=
  if b =? 0 then Raise ZeroDivisionError else Ret (a / b, a mod b).

Definition point_to_coord (point : option Z) (boardsize : Z)
  : py (option (Z * Z)) :=
  match point with
  | None => Ret PASS
  | Some p =>
      let NS := boardsize + 1 in
      rc ← divmod p NS; Ret (Some rc)
  end.

Definition column_letters : string := "ABCDEFGHJKLMNOPQRSTUVWXYZ".

Definition format_point (move : option (Z * Z)) : py string :=
  match move with
  | None => Ret "pass"%string
  | Some (row, col) =>
      if negb ((0 <=? row) && (row <? MAXSIZE))
         || negb ((0 <=? col) && (col <? MAXSIZE))
      then Raise ValueError
      else
        letter ← str_index column_letters (col - 1);
        Ret (String letter (str row))
  end.

(** ** Transposition table *)

(** The object's two attributes: the dictionary from board code to score and
    the Zobrist numbers, indexed [zobrist[k][j][i]]. *)
Record TranspositionTable : Type := {
  table : gmap Z Z;
  zobrist : list (list (list Z))
}.

(** [random.randint(a, b)] returns an integer N with a <= N <= b, both ends
    included.  The generator is read as a supply of raw non-negative draws;
    a draw [raw] is mapped into the closed range. *)
Definition randint (a b raw : Z) : Z := a + raw mod (b - a + 1).

(** The nested comprehension of [__init__]: the outer list runs over [k], the
    middle one over [j], the innermost over [i], and the draws are consumed in
    that order of evaluation. *)
Definition init_zobrist (entropy : nat -> Z) (size : Z) : list (list (list Z)) :=
  let n := Z.to_nat size in
  map (fun k =>
    map (fun j =>
      map (fun i => randint 1 (2 ^ 32 - 1) (entropy ((k * n + j) * 2 + i)%nat))
          (range 2))
        (range n))
      (range n).

Definition TranspositionTable_init (entropy : nat -> Z) (size : Z)
  : TranspositionTable :=
  {| table := ∅; zobrist := init_zobrist entropy size |}.

(** [store] updates the dictionary in place and returns the score. *)
Definition store (tt : TranspositionTable) (code score : Z)
  : Z * TranspositionTable :=
  (score, {| table := <[code := score]> (table tt); zobrist := zobrist tt |}).

(** [dict.get(code)]: the value, or [None] when the key is missing. *)
Definition lookup (tt : TranspositionTable) (code : Z) : option Z :=
  table tt !! code.

Definition index (player : Z) : Z :=
  if player =? BLACK then 0
  else if player =? WHITE then 1
  else -1.

(** A run of [store] calls on one table, first to last. *)
Definition store_all (tt : TranspositionTable) (entries : list (Z * Z))
  : TranspositionTable :=
  fold_left (fun t e => snd (store t (fst e) (snd e))) entries tt.

(** ** The board, as the module uses it *)

(** The board class is not part of [board_util.py]; the search reads its
    attributes [size] and [board] and calls the methods below.  [B] is the
    state such a board keeps, each method a function of it; the two mutating
    methods return the new state. *)
Class GoBoard (B : Type) : Type := {
  size : B -> nat;                      (* board.size *)
  row_start : B -> nat -> nat;          (* board.row_start(row) *)
  board : B -> list Z;                  (* board.board, the flat numpy array *)
  get_empty_points : B -> list Z;       (* board.get_empty_points() *)
  is_legal : B -> Z -> Z -> bool;       (* board.is_legal(move, color) *)
  play_move : B -> Z -> Z -> B;         (* board.play_move(move, color) *)
  undoLastMove : B -> B;                (* board.undoLastMove() *)
  evaluate_endgame : B -> Z             (* board.evaluate_endgame() *)
}.

(** The Python object [board]: the state of the board class and the attribute
    [board.tt], which only [store] updates. *)
Record board_obj (B : Type) : Type := {
  pos : B;
  tt : TranspositionTable
}.
Arguments pos {B} _.
Arguments tt {B} _.

(** What one call of [simulate] does to the board and the table, in order.
    A recursive call is one event that holds the events of the callee. *)
Inductive event : Type :=
| GetCode (code : Z)
| Lookup (code : Z) (found : option Z)
| EvaluateEndgame (winner : Z)
| GenerateLegalMoves (color : Z) (moves : list Z)
| PlayMove (move color : Z)
| Simulate (color alpha beta : Z) (inner : list event) (returned : Z)
| Store (code value : Z)
| UndoLastMove.

(** The outcome of a search: a value with the board object as the call
    leaves it and the events of the call, an exception, or no answer within
    the recursion depth allowed. *)
Inductive outcome (B : Type) : Type :=
| Done (value : Z) (b : board_obj B) (events : list event)
| Raised (e : exn)
| OutOfFuel.
Arguments Done {B} value b events.
Arguments Raised {B} e.
Arguments OutOfFuel {B}.

(** [board[start : start + len]] for a flat array and a start inside or past
    it: the slice stops at the end of the array. *)
Definition slice (l : list Z) (start len : nat) : list Z :=
  firstn len (skipn start l).

(** A value written into an array of dtype [np.int32]: the flat array
    [board.board] is a numpy array of integers (the 1-d array of the
    docstrings), and numpy casts an integer array of another width on
    assignment by keeping the low 32 bits, read as a signed number. *)
Definition to_int32 (z : Z) : Z := (z + 2 ^ 31) mod 2 ^ 32 - 2 ^ 31.

(** [board2d[row, :] = values] for a row of an [np.int32] array: numpy
    copies a slice of the row's length, repeats a slice of length one, and
    raises ValueError for any other; each value is cast to [np.int32]. *)
Definition assign_row (board2d : list (list Z)) (row n : nat)
           (values : list Z) : py (list (list Z)) :=
  if (length values =? n)%nat then Ret (<[row := map to_int32 values]> board2d)
  else match values with
       | [x] => Ret (<[row := repeat (to_int32 x) n]> board2d)
       | _ => Raise ValueError
       end.

(** [if tt_lookup:] is true for a stored value other than zero. *)
Definition truthy (v : option Z) : bool :=
  match v with
  | Some x => negb (x =? 0)
  | None => false
  end.

Definition opponent (color : Z) : Z := WHITE + BLACK - color.

Section BoardUtil.
Context {B : Type} `{GoBoard B}.

(** [board2d] is the [np.int32] array of zeros, a list of rows. *)
Definition get_twoD_board (goboard : B) : py (list (list Z)) :=
  let size := size goboard in
  let board2d := repeat (repeat 0 size) size in
  py_for (range size) (fun row board2d =>
    let start := row_start goboard (row + 1)%nat in
    assign_row board2d row size (slice (board goboard) start size))
    board2d.

(** One step of the inner loop of [getCode], at cell (i, j). *)
Definition getCode_cell (self : TranspositionTable)
           (twoD_board : list (list Z)) (i j : nat) (hash : Z) : py Z :=
  row ← py_index twoD_board (Z.of_nat i);
  c ← py_index row (Z.of_nat j);
  if negb (c =? 0) then
    let player := index c in
    zi ← py_index (zobrist self) (Z.of_nat i);
    zij ← py_index zi (Z.of_nat j);
    z ← py_index zij player;
    Ret (Z.lxor hash z)
  else Ret hash.

Definition getCode (self : TranspositionTable) (b : B) : py Z :=
  let hash := 0 in
  twoD_board ← get_twoD_board b;
  py_for (range (size b)) (fun i hash =>
    py_for (range (size b)) (fun j hash =>
      getCode_cell self twoD_board i j hash) hash) hash.

Definition generate_legal_moves (b : B) (color : Z) : list Z :=
  let moves := get_empty_points b in
  List.filter (fun move => is_legal b move color) moves.

(** The [for move in legal_moves] loop of [simulate]; [rec] is the
    recursive call and [code] the local variable set before the loop. *)
Fixpoint move_loop (rec : board_obj B -> Z -> Z -> Z -> outcome B)
         (code color opponent alpha beta : Z) (legal_moves : list Z)
         (b : board_obj B) : outcome B :=
  match legal_moves with
  | [] => Done alpha b []
  | move :: rest =>
      let b1 := {| pos := play_move (pos b) move color; tt := tt b |} in
      match rec b1 opponent (- beta) (- alpha) with
      | Done r b2 inner =>
          let value := - r in
          let b3 :=
            {| pos := pos b2; tt := snd (store (tt b2) code value) |} in
          let alpha' :=
            if (value >? alpha) && (value >? 0) then value else alpha in
          let b4 := {| pos := undoLastMove (pos b3); tt := tt b3 |} in
          let round := [PlayMove move color;
                        Simulate opponent (- beta) (- alpha) inner r;
                        Store code value;
                        UndoLastMove] in
          if value >=? beta then Done beta b4 round
          else
            match move_loop rec code color opponent alpha' beta rest b4 with
            | Done v b5 events => Done v b5 (round ++ events)
            | Raised e => Raised e
            | OutOfFuel => OutOfFuel
            end
      | Raised e => Raised e
      | OutOfFuel => OutOfFuel
      end
  end.

(** [simulate(board, color, alpha, beta)]; [fuel] bounds the depth of the
    recursion. *)
Fixpoint simulate (fuel : nat) (b : board_obj B) (color alpha beta : Z)
  : outcome B :=
  match fuel with
  | O => OutOfFuel
  | S fuel' =>
      match getCode (tt b) (pos b) with
      | Raise e => Raised e
      | Ret code =>
          let tt_lookup := lookup (tt b) code in
          if truthy tt_lookup then
            Done (default 0 tt_lookup) b [GetCode code; Lookup code tt_lookup]
          else
            let endgame_query_result := evaluate_endgame (pos b) in
            if negb (endgame_query_result =? EMPTY) then
              match getCode (tt b) (pos b) with
              | Raise e => Raised e
              | Ret code' =>
                  let value :=
                    if endgame_query_result =? color then 1 else -1 in
                  let '(score, tt') := store (tt b) code' value in
                  Done score {| pos := pos b; tt := tt' |}
                       [GetCode code; Lookup code tt_lookup;
                        EvaluateEndgame endgame_query_result;
                        GetCode code'; Store code' value]
              end
            else
              let legal_moves := generate_legal_moves (pos b) color in
              let opponent := opponent color in
              match move_loop (simulate fuel') code color opponent
                              alpha beta legal_moves b with
              | Done v b' events =>
                  Done v b'
                       ([GetCode code; Lookup code tt_lookup;
                         EvaluateEndgame endgame_query_result;
                         GenerateLegalMoves color legal_moves] ++ events)
              | Raised e => Raised e
              | OutOfFuel => OutOfFuel
              end
      end
  end.

End BoardUtil.

(** ** Reading a trace *)

(** The moves played by the call itself, in order; the moves of the calls it
    makes are inside their [Simulate] events. *)
Fixpoint plays (events : list event) : list Z :=
  match events with
  | [] => []
  | PlayMove move _ :: rest => move :: plays rest
  | _ :: rest => plays rest
  end.

(** The [(code, value)] pairs stored by the call itself, in order. *)
Fixpoint stores (events : list event) : list (Z * Z) :=
  match events with
  | [] => []
  | Store code value :: rest => (code, value) :: stores rest
  | _ :: rest => stores rest
  end.

(** The codes computed by the call itself, in order. *)
Fixpoint codes (events : list event) : list Z :=
  match events with
  | [] => []
  | GetCode code :: rest => code :: codes rest
  | _ :: rest => codes rest
  end.

(** No recursive call of the call itself came back with a value whose
    negation reaches [beta]. *)
Fixpoint no_cutoff (beta : Z) (events : list event) : bool :=
  match events with
  | [] => true
  | Simulate _ _ _ _ r :: rest => (- r <? beta) && no_cutoff beta rest
  | _ :: rest => no_cutoff beta rest
  end.

(** The moves applied and not yet undone, most recent first, after an event;
    [None] when an undo finds no move to take back.  The events inside a
    recursive call are run in their place. *)
Fixpoint run_event (e : event) (applied : list (Z * Z))
  : option (list (Z * Z)) :=
  match e with
  | PlayMove move color => Some ((move, color) :: applied)
  | UndoLastMove =>
      match applied with
      | [] => None
      | _ :: earlier => Some earlier
      end
  | Simulate _ _ _ inner _ =>
      (fix run (events : list event) (applied : list (Z * Z)) :=
         match events with
         | [] => Some applied
         | e' :: rest =>
             match run_event e' applied with
             | Some applied' => run rest applied'
             | None => None
             end
         end) inner applied
  | _ => Some applied
  end.

Fixpoint run_trace (events : list event) (applied : list (Z * Z))
  : option (list (Z * Z)) :=
  match events with
  | [] => Some applied
  | e :: rest =>
      match run_event e applied with
      | Some applied' => run_trace rest applied'
      | None => None
      end
  end.

(** Every move applied during the events is undone by their end, the last
    applied first, whatever was applied before them. *)
Definition balanced (events : list event) : Prop :=
  forall applied, run_trace events applied = Some applied.

(** Whether two results of [dict.get] are the same. *)
Definition same_found (x y : option Z) : bool :=
  match x, y with
  | Some v, Some w => v =? w
  | None, None => true
  | _, _ => false
  end.

(** An event replayed on a dictionary [d]: a store sets its key, as
    [self.table[code] = score] does, and a lookup must have recorded what
    [d] holds under its code at that point, [None] when it recorded
    something else.  The events inside a recursive call are replayed in
    their place. *)
Fixpoint replay_event (e : event) (d : gmap Z Z) : option (gmap Z Z) :=
  match e with
  | Store code value => Some (<[code := value]> d)
  | Lookup code found =>
      if same_found (d !! code) found then Some d else None
  | Simulate _ _ _ inner _ =>
      (fix replay (events : list event) (d : gmap Z Z) :=
         match events with
         | [] => Some d
         | e' :: rest =>
             match replay_event e' d with
             | Some d' => replay rest d'
             | None => None
             end
         end) inner d
  | _ => Some d
  end.

Fixpoint replay_trace (events : list event) (d : gmap Z Z)
  : option (gmap Z Z) :=
  match events with
  | [] => Some d
  | e :: rest =>
      match replay_event e d with
      | Some d' => replay_trace rest d'
      | None => None
      end
  end.

(** The recursive calls of the call itself, in order: the move played
    before each and the events of the callee. *)
Fixpoint children (events : list event) : list (Z * list event) :=
  match events with
  | PlayMove move _ :: Simulate _ _ _ inner _ :: rest =>
      (move, inner) :: children rest
  | _ :: rest => children rest
  | [] => []
  end.

(** The events of the loop: one round per move examined, each a play, the
    recursive call for the opponent, a store of the negated value under
    [code], and the undo. *)
Inductive rounds (code color : Z) : list event -> Prop :=
| rounds_nil : rounds code color []
| rounds_cons move alpha beta inner r rest :
    rounds code color rest ->
    rounds code color
           (PlayMove move color
            :: Simulate (opponent color) alpha beta inner r
            :: Store code (- r)
            :: UndoLastMove
            :: rest).

(** What a finished call leaves behind: the position it was given, a
    balanced trace, and the Zobrist numbers it was given. *)
Definition restores {B : Type} (b b' : board_obj B) (events : list event)
  : Prop :=
  pos b' = pos b /\ balanced events /\ zobrist (tt b') = zobrist (tt b).

(** ** A two by two board *)

(** A small board to run the search on: the moves played, most recent first,
    each a point with the colour put there.  The flat array has the layout of
    [coord_to_point] for board size 2. *)
Definition toy : Type := list (Z * Z).

Definition toy_points : list Z := [4; 5; 7; 8].

Definition toy_color_at (b : toy) (p : Z) : Z :=
  match List.find (fun e => fst e =? p) b with
  | Some e => snd e
  | None => EMPTY
  end.

Definition toy_board (b : toy) : list Z :=
  map (fun p => if existsb (Z.eqb p) toy_points then toy_color_at b p
                else BORDER)
      [0; 1; 2; 3; 4; 5; 6; 7; 8; 9; 10; 11; 12].

(** A column of two stones of one colour wins. *)
Definition toy_winner (b : toy) : Z :=
  if negb (toy_color_at b 4 =? EMPTY) && (toy_color_at b 4 =? toy_color_at b 7)
  then toy_color_at b 4
  else if negb (toy_color_at b 5 =? EMPTY)
          && (toy_color_at b 5 =? toy_color_at b 8)
  then toy_color_at b 5
  else EMPTY.

#[global] Instance toy_GoBoard : GoBoard toy := {|
  size := fun _ => 2%nat;
  row_start := fun _ row => (row * 3 + 1)%nat;
  board := toy_board;
  get_empty_points := fun b =>
    List.filter (fun p => toy_color_at b p =? EMPTY) toy_points;
  is_legal := fun b move color =>
    (toy_color_at b move =? EMPTY) && is_black_white color;
  play_move := fun b move color => (move, color) :: b;
  undoLastMove := fun b => tl b;
  evaluate_endgame := toy_winner
|}.

(** The number of empty points, which every legal move lowers. *)
Definition toy_measure (p : toy) : nat := length (get_empty_points p).

(** The table of the toy board: the draws are chosen so that entry number n
    of the Zobrist table is 2^n. *)
Definition toy_tt : TranspositionTable :=
  TranspositionTable_init (fun n => 2 ^ Z.of_nat n - 1) 2.

Definition toy_obj (b : toy) (entries : list (Z * Z)) : board_obj toy :=
  {| pos := b;
     tt := {| table := list_to_map entries; zobrist := zobrist toy_tt |} |}.

(** ** Reading a table and a code *)

(** The value given by the last of the [entries] that names [code], if one
    does. *)
Fixpoint last_stored (entries : list (Z * Z)) (code : Z) : option Z :=
  match entries with
  | [] => None
  | (c, v) :: rest =>
      match last_stored rest code with
      | Some w => Some w
      | None => if c =? code then Some v else None
      end
  end.

Definition xor_all (l : list Z) : Z := fold_right Z.lxor 0 l.

(** The cell (i, j) of a two-dimensional board, 0 outside it. *)
Definition cell (twoD_board : list (list Z)) (i j : nat) : Z :=
  match twoD_board !! i with
  | Some row => default 0 (row !! j)
  | None => 0
  end.

(** What [getCode] xors into the hash at cell (i, j) holding [c]: nothing
    for an empty cell, else the entry [zobrist[i][j][index(c)]]. *)
Definition zobrist_number (zob : list (list (list Z))) (i j : nat) (c : Z)
  : Z :=
  if c =? 0 then 0
  else match zob !! i with
       | Some zi =>
           match zi !! j with
           | Some zij =>
               match py_index zij (index c) with
               | Ret z => z
               | Raise _ => 0
               end
           | None => 0
           end
       | None => 0
       end.

(** The xor of the numbers of all cells of an n by n board. *)
Definition board_code (zob : list (list (list Z))) (n : nat)
           (twoD_board : list (list Z)) : Z :=
  xor_all (map (fun i =>
    xor_all (map (fun j => zobrist_number zob i j (cell twoD_board i j))
                 (range n)))
    (range n)).

(** A Zobrist table as [__init__] builds it for size n: n rows of n cells
    of two numbers. *)
Definition zobrist_shape (n : nat) (zob : list (list (list Z))) : Prop :=
  length zob = n /\
  Forall (fun zi => length zi = n /\
                    Forall (fun zij => length zij = 2%nat) zi) zob.

(** An n by n two-dimensional board. *)
Definition board_shape (n : nat) (twoD_board : list (list Z)) : Prop :=
  length twoD_board = n /\ Forall (fun row => length row = n) twoD_board.

(** The values an [np.int32] cell can hold. *)
Definition in_int32 (z : Z) : Prop := - 2 ^ 31 <= z < 2 ^ 31.

(** Every number of a Zobrist table is a natural number below [bound]. *)
Definition zobrist_below (bound : Z) (zob : list (list (list Z))) : Prop :=
  Forall (Forall (Forall (fun e => 0 <= e < bound))) zob.

(** What [getCode] can tell apart in a cell: empty, black, and the rest. *)
Definition as_hashed (c : Z) : Z :=
  if c =? 0 then 0 else if c =? BLACK then BLACK else WHITE.

(** Equations between xors of the same terms, bit by bit. *)
Ltac solve_xor :=
  apply Z.bits_inj'; intros ? _; rewrite !Z.lxor_spec;
  repeat match goal with
         | |- context [Z.testbit ?a ?n] => destruct (Z.testbit a n)
         end;
  reflexivity.

(** The value returned by the last recursive call of the call itself. *)
Fixpoint last_returned (events : list event) : option Z :=
  match events with
  | [] => None
  | Simulate _ _ _ _ r :: rest =>
      match last_returned rest with
      | Some r' => Some r'
      | None => Some r
      end
  | _ :: rest => last_returned rest
  end.

Section RandomMove.
Context {B : Type} `{GoBoard B}.

(** [board.is_eye(move, color)], a method the search itself does not use. *)
Variable is_eye : B -> Z -> Z -> bool.

(** What [np.random.shuffle] makes of the array of empty points. *)
Variable shuffle : list Z -> list Z.

Definition generate_random_move (b : B) (color : Z) (use_eye_filter : bool)
  : option Z :=
  let moves := shuffle (get_empty_points b) in
  List.find (fun move =>
               negb (use_eye_filter && is_eye b move color)
               && is_legal b move color)
            moves.

End RandomMove.

(** Every code with an entry in the table of [b] has one in that of [b']. *)
Definition keeps_entries {B : Type} (b b' : board_obj B) : Prop :=
  forall code, is_Some (lookup (tt b) code) -> is_Some (lookup (tt b') code).

(** ** A board that is only its flat array *)

(** A size and a flat array in the layout of [coord_to_point], with no
    moves to play: enough to read the array. *)
Definition flat : Type := nat * list Z.

#[global] Instance flat_GoBoard : GoBoard flat := {|
  size := fun b => fst b;
  row_start := fun b row => (row * (fst b + 1) + 1)%nat;
  board := fun b => snd b;
  get_empty_points := fun _ => [];
  is_legal := fun _ _ _ => false;
  play_move := fun b _ _ => b;
  undoLastMove := fun b => b;
  evaluate_endgame := fun _ => EMPTY
|}.

(** * Properties *)

(** ** Coordinate codec *)

Lemma coord_to_point_valid (row col boardsize : Z) :
  1 <= row <= boardsize -> 1 <= col <= boardsize ->
  coord_to_point row col boardsize = Ret ((boardsize + 1) * row + col).
Proof.
  intros [Hr1 Hr2] [Hc1 Hc2]. unfold coord_to_point.
  apply Z.leb_le in Hr1, Hr2, Hc1, Hc2.
  rewrite Hr1, Hr2, Hc1, Hc2. reflexivity.
Qed.

Lemma divmod_row_col (row col NS : Z) :
  0 <= col < NS -> divmod (NS * row + col) NS = Ret (row, col).
Proof.
  intros Hcol. unfold divmod.
  destruct (Z.eqb_spec NS 0) as [-> | Hne]; [lia |].
  f_equal. f_equal.
  - rewrite Z.mul_comm, Z.div_add_l by exact Hne.
    rewrite Z.div_small by exact Hcol. lia.
  - rewrite Z.add_comm, Z.mul_comm, Z.mod_add by exact Hne.
    apply Z.mod_small; exact Hcol.
Qed.

(** C7. For a board size of at least 1 and a coordinate with
    1 <= row, col <= boardsize, [coord_to_point] returns a point that
    [point_to_coord] maps back to (row, col); hence two valid coordinates
    with the same point are the same coordinate. *)
Theorem point_to_coord_inverts_coord_to_point (boardsize : Z) :
  1 <= boardsize ->
  (forall row col,
      1 <= row <= boardsize -> 1 <= col <= boardsize ->
      exists p, coord_to_point row col boardsize = Ret p /\
                point_to_coord (Some p) boardsize = Ret (Some (row, col))) /\
  (forall row1 col1 row2 col2,
      1 <= row1 <= boardsize -> 1 <= col1 <= boardsize ->
      1 <= row2 <= boardsize -> 1 <= col2 <= boardsize ->
      coord_to_point row1 col1 boardsize = coord_to_point row2 col2 boardsize ->
      (row1, col1) = (row2, col2)).
Proof.
  intros Hsize.
  assert (Hround : forall row col,
             1 <= row <= boardsize -> 1 <= col <= boardsize ->
             point_to_coord (Some ((boardsize + 1) * row + col)) boardsize
             = Ret (Some (row, col))).
  { intros row col Hrow Hcol. unfold point_to_coord.
    rewrite divmod_row_col by lia. reflexivity. }
  split.
  - intros row col Hrow Hcol. eexists. split.
    + apply coord_to_point_valid; assumption.
    + apply Hround; assumption.
  - intros row1 col1 row2 col2 Hr1 Hc1 Hr2 Hc2 Heq.
    rewrite !coord_to_point_valid in Heq by assumption.
    injection Heq as Heq.
    pose proof (Hround row1 col1 Hr1 Hc1) as H1.
    pose proof (Hround row2 col2 Hr2 Hc2) as H2.
    rewrite Heq in H1. congruence.
Qed.

Lemma point_to_coord_inverts_coord_to_point_3x3 :
  (exists p, coord_to_point 2 3 3 = Ret p /\
             point_to_coord (Some p) 3 = Ret (Some (2, 3))) /\
  (coord_to_point 1 3 3 = coord_to_point 1 3 3 -> (1, 3) = (1, 3)).
Proof.
  split.
  - apply (proj1 (point_to_coord_inverts_coord_to_point 3 ltac:(lia)) 2 3);
      lia.
  - apply (proj2 (point_to_coord_inverts_coord_to_point 3 ltac:(lia)) 1 3 1 3);
      lia.
Defined.

(** ** Formatting a point *)

Lemma str_index_column_letters (col : Z) :
  0 <= col < 25 ->
  exists letter,
    str_index column_letters (col - 1) = Ret letter /\
    In letter (list_ascii_of_string column_letters).
Proof.
  intros Hcol.
  assert (Hn : exists n : nat, (n < 25)%nat /\ col = Z.of_nat n).
  { exists (Z.to_nat col). lia. }
  destruct Hn as (n & Hn & ->).
  do 25 (destruct n as [| n];
         [ eexists; split; [ vm_compute; reflexivity | simpl; tauto ] | ]).
  lia.
Qed.

Lemma format_point_in_range (row col : Z) :
  0 <= row < 25 -> 0 <= col < 25 ->
  format_point (Some (row, col))
  = (letter ← str_index column_letters (col - 1);
     Ret (String letter (str row))).
Proof.
  intros Hrow Hcol. unfold format_point, MAXSIZE.
  replace (0 <=? row) with true by (symmetry; apply Z.leb_le; lia).
  replace (row <? 25) with true by (symmetry; apply Z.ltb_lt; lia).
  replace (0 <=? col) with true by (symmetry; apply Z.leb_le; lia).
  replace (col <? 25) with true by (symmetry; apply Z.ltb_lt; lia).
  reflexivity.
Qed.

Lemma format_point_out_of_range (row col : Z) :
  ~ (0 <= row < 25 /\ 0 <= col < 25) ->
  format_point (Some (row, col)) = Raise ValueError.
Proof.
  intros Hout. unfold format_point, MAXSIZE.
  destruct (Z.leb_spec 0 row), (Z.ltb_spec row 25),
    (Z.leb_spec 0 col), (Z.ltb_spec col 25); simpl; try reflexivity.
  exfalso. apply Hout. lia.
Qed.



(** C10. For a row in [0, 25) and column 0 the call does not raise: index
    -1 picks the last letter, and the result is Z followed by the row. *)
Theorem format_point_column_zero (row : Z) :
  0 <= row < 25 ->
  format_point (Some (row, 0)) = Ret (String "Z"%char (str row)).
Proof.
  intros Hrow. rewrite format_point_in_range by lia. reflexivity.
Qed.

Lemma format_point_column_zero_row_7 :
  format_point (Some (7, 0)) = Ret "Z7"%string.
Proof. apply (format_point_column_zero 7). lia. Defined.

(** ** Transposition table *)

Lemma randint_closed_range (a b raw : Z) :
  a <= b -> a <= randint a b raw <= b.
Proof.
  intros Hab. unfold randint.
  pose proof (Z.mod_pos_bound raw (b - a + 1)). lia.
Qed.

Lemma randint_reaches_upper_end (a b : Z) :
  a <= b -> randint a b (b - a) = b.
Proof.
  intros Hab. unfold randint. rewrite Z.mod_small by lia. lia.
Qed.

(** C6, as the code has it.  The table built by [__init__] has size rows of
    size cells of 2 entries, and every entry lies in the closed range
    [1, 2^32 - 1]: [random.randint] includes its upper end. *)
Theorem init_zobrist_shape_and_range (entropy : nat -> Z) (size : Z) :
  let t := TranspositionTable_init entropy size in
  table t = ∅ /\
  length (zobrist t) = Z.to_nat size /\
  Forall (fun row =>
            length row = Z.to_nat size /\
            Forall (fun cell =>
                      length cell = 2%nat /\
                      Forall (fun e => 1 <= e <= 2 ^ 32 - 1) cell) row)
         (zobrist t).
Proof.
  cbn zeta. unfold TranspositionTable_init, init_zobrist, range. cbn [table zobrist].
  split; [reflexivity |].
  split; [rewrite length_map, length_seq; reflexivity |].
  apply Forall_map, Forall_forall. intros k _.
  split; [rewrite length_map, length_seq; reflexivity |].
  apply Forall_map, Forall_forall. intros j _.
  split; [reflexivity |].
  apply Forall_map, Forall_forall. intros i _.
  apply randint_closed_range. lia.
Qed.

(** C6, as stated, fails: when the generator's draw is the top of the range,
    the entry is 2^32 - 1, which is not strictly below 2^32 - 1. *)
Lemma init_zobrist_entry_at_upper_end :
  zobrist (TranspositionTable_init (fun _ => 2 ^ 32 - 2) 1)
  = [[[2 ^ 32 - 1; 2 ^ 32 - 1]]] /\
  ~ (forall (entropy : nat -> Z) (size : Z) row cell e,
        In row (zobrist (TranspositionTable_init entropy size)) ->
        In cell row -> In e cell -> 1 <= e < 2 ^ 32 - 1).
Proof.
  split; [reflexivity |].
  intros Hclaim.
  specialize (Hclaim (fun _ => 2 ^ 32 - 2) 1
                     [[2 ^ 32 - 1; 2 ^ 32 - 1]] [2 ^ 32 - 1; 2 ^ 32 - 1]
                     (2 ^ 32 - 1)).
  assert (1 <= 2 ^ 32 - 1 < 2 ^ 32 - 1) as [_ Hlt]; [| lia].
  apply Hclaim; simpl; auto.
Qed.

Lemma TranspositionTable_eta (t : TranspositionTable) :
  t = {| table := table t; zobrist := zobrist t |}.
Proof. destruct t; reflexivity. Qed.

Lemma lookup_store_all_absent (tt : TranspositionTable)
      (entries : list (Z * Z)) (code : Z) :
  ~ In code (map fst entries) ->
  lookup (store_all tt entries) code = lookup tt code.
Proof.
  revert tt. induction entries as [| [c v] entries IH]; intros tt Hnot.
  - reflexivity.
  - simpl in Hnot. change (store_all tt ((c, v) :: entries))
      with (store_all (snd (store tt c v)) entries).
    rewrite IH by tauto.
    unfold lookup, store. cbn [snd table].
    apply lookup_insert_ne. tauto.
Qed.

(** C8. [store] returns the score it was given, and a [lookup] of the same
    code right after it returns that score, whatever the table held before;
    a [lookup] of a code that no [store] since [__init__] was given returns
    [None]. *)
Theorem lookup_store_round_trip :
  (forall (tt : TranspositionTable) (code v : Z),
      fst (store tt code v) = v /\
      lookup (snd (store tt code v)) code = Some v) /\
  (forall (entropy : nat -> Z) (size : Z) (entries : list (Z * Z)) (code : Z),
      ~ In code (map fst entries) ->
      lookup (store_all (TranspositionTable_init entropy size) entries) code
      = None).
Proof.
  split.
  - intros tt code v. split; [reflexivity |].
    unfold lookup, store. cbn [snd table]. apply lookup_insert_eq.
  - intros entropy size entries code Hnot.
    rewrite lookup_store_all_absent by exact Hnot.
    unfold lookup, TranspositionTable_init. cbn [table].
    apply lookup_empty.
Qed.

Lemma lookup_store_round_trip_examples :
  (fst (store toy_tt 9 0) = 0 /\ lookup (snd (store toy_tt 9 0)) 9 = Some 0) /\
  lookup (store_all (TranspositionTable_init (fun _ => 5) 2) [(9, 1); (2, -1)])
         4 = None.
Proof.
  split.
  - apply (proj1 lookup_store_round_trip toy_tt 9 0).
  - apply (proj2 lookup_store_round_trip (fun _ => 5) 2 [(9, 1); (2, -1)] 4).
    simpl. lia.
Defined.

(** ** The search *)

Lemma run_event_Simulate color alpha beta inner r applied :
  run_event (Simulate color alpha beta inner r) applied
  = run_trace inner applied.
Proof.
  cbn [run_event]. revert applied.
  induction inner as [| e inner IH]; intros applied; [reflexivity |].
  cbn [run_trace]. destruct (run_event e applied); [apply IH | reflexivity].
Qed.

Lemma run_trace_app events1 events2 applied :
  run_trace (events1 ++ events2) applied
  = match run_trace events1 applied with
    | Some applied' => run_trace events2 applied'
    | None => None
    end.
Proof.
  revert applied. induction events1 as [| e events1 IH]; intros applied.
  - reflexivity.
  - cbn [app run_trace]. destruct (run_event e applied); [apply IH | reflexivity].
Qed.

Lemma balanced_app events1 events2 :
  balanced events1 -> balanced events2 -> balanced (events1 ++ events2).
Proof.
  intros H1 H2 applied. rewrite run_trace_app, H1. apply H2.
Qed.

Lemma balanced_round move color c alpha beta inner r code value :
  balanced inner ->
  balanced [PlayMove move color; Simulate c alpha beta inner r;
            Store code value; UndoLastMove].
Proof.
  intros Hinner applied. cbn [run_trace].
  change (run_event (PlayMove move color) applied)
    with (Some ((move, color) :: applied)).
  cbv iota beta. rewrite run_event_Simulate, Hinner. reflexivity.
Qed.

Lemma plays_app events1 events2 :
  plays (events1 ++ events2) = plays events1 ++ plays events2.
Proof.
  induction events1 as [| e events1 IH]; [reflexivity |].
  destruct e; cbn [app plays]; rewrite ?IH; reflexivity.
Qed.

Lemma rounds_codes code color events :
  rounds code color events -> codes events = [].
Proof. induction 1; [reflexivity | assumption]. Qed.

Lemma rounds_stores code color events :
  rounds code color events ->
  Forall (fun entry => fst entry = code) (stores events).
Proof.
  induction 1; cbn [stores]; [constructor |].
  constructor; [reflexivity | assumption].
Qed.

Section SimulateFacts.
Context {B : Type} `{GoBoard B}.

(** The three ways through the body of [simulate]. *)

Lemma simulate_hit fuel (b : board_obj B) color alpha beta code v :
  getCode (tt b) (pos b) = Ret code ->
  lookup (tt b) code = Some v ->
  v <> 0 ->
  simulate (S fuel) b color alpha beta
  = Done v b [GetCode code; Lookup code (Some v)].
Proof.
  intros Hcode Hlookup Hv. cbn [simulate]. rewrite Hcode, Hlookup.
  cbn [truthy]. destruct (Z.eqb_spec v 0); [contradiction | reflexivity].
Qed.

Lemma simulate_decided fuel (b : board_obj B) color alpha beta code :
  getCode (tt b) (pos b) = Ret code ->
  truthy (lookup (tt b) code) = false ->
  evaluate_endgame (pos b) <> EMPTY ->
  let winner := evaluate_endgame (pos b) in
  let value := if winner =? color then 1 else -1 in
  simulate (S fuel) b color alpha beta
  = Done value
         {| pos := pos b; tt := snd (store (tt b) code value) |}
         [GetCode code; Lookup code (lookup (tt b) code);
          EvaluateEndgame winner; GetCode code; Store code value].
Proof.
  intros Hcode Hmiss Hwinner. cbn zeta. cbn [simulate].
  rewrite Hcode, Hmiss.
  destruct (Z.eqb_spec (evaluate_endgame (pos b)) EMPTY);
    [contradiction | reflexivity].
Qed.

Lemma simulate_expand fuel (b : board_obj B) color alpha beta code :
  getCode (tt b) (pos b) = Ret code ->
  truthy (lookup (tt b) code) = false ->
  evaluate_endgame (pos b) = EMPTY ->
  simulate (S fuel) b color alpha beta
  = match move_loop (simulate fuel) code color (opponent color) alpha beta
                    (generate_legal_moves (pos b) color) b with
    | Done v b' events =>
        Done v b'
             ([GetCode code; Lookup code (lookup (tt b) code);
               EvaluateEndgame EMPTY;
               GenerateLegalMoves color
                                  (generate_legal_moves (pos b) color)]
                ++ events)
    | Raised e => Raised e
    | OutOfFuel => OutOfFuel
    end.
Proof.
  intros Hcode Hmiss Hopen. cbn [simulate].
  rewrite Hcode, Hmiss, Hopen. reflexivity.
Qed.

(** The loop, one round at a time. *)

Lemma move_loop_cons rec code color alpha beta move rest (b : board_obj B)
      r b2 inner :
  rec {| pos := play_move (pos b) move color; tt := tt b |}
      (opponent color) (- beta) (- alpha) = Done r b2 inner ->
  let round := [PlayMove move color;
                Simulate (opponent color) (- beta) (- alpha) inner r;
                Store code (- r); UndoLastMove] in
  let b4 := {| pos := undoLastMove (pos b2);
               tt := snd (store (tt b2) code (- r)) |} in
  move_loop rec code color (opponent color) alpha beta (move :: rest) b
  = if - r >=? beta then Done beta b4 round
    else match move_loop rec code color (opponent color)
                         (if (- r >? alpha) && (- r >? 0) then - r
                          else alpha)
                         beta rest b4 with
         | Done v b5 events => Done v b5 (round ++ events)
         | Raised e => Raised e
         | OutOfFuel => OutOfFuel
         end.
Proof. intros Hrec. cbn [move_loop]. rewrite Hrec. reflexivity. Qed.

Lemma move_loop_rounds rec code color beta legal_moves :
  forall alpha (b : board_obj B) v b' events,
    move_loop rec code color (opponent color) alpha beta legal_moves b
    = Done v b' events ->
    rounds code color events /\
    exists later, legal_moves = plays events ++ later.
Proof.
  induction legal_moves as [| move rest IH]; intros alpha b v b' events Hrun.
  - cbn [move_loop] in Hrun. injection Hrun as <- <- <-.
    split; [constructor | exists []; reflexivity].
  - destruct (rec {| pos := play_move (pos b) move color; tt := tt b |}
                  (opponent color) (- beta) (- alpha))
      as [r b2 inner | e |] eqn:Hrec;
      [| cbn [move_loop] in Hrun; rewrite Hrec in Hrun; discriminate Hrun ..].
    rewrite (move_loop_cons _ _ _ _ _ _ _ _ _ _ _ Hrec) in Hrun.
    cbn zeta in Hrun.
    destruct (- r >=? beta).
    + injection Hrun as <- <- <-.
      split; [repeat constructor | exists rest; reflexivity].
    + match type of Hrun with
      | match ?loop with _ => _ end = _ =>
          destruct loop as [v5 b5 events5 | e |] eqn:Hloop;
          [| discriminate Hrun ..]
      end.
      injection Hrun as <- <- <-.
      destruct (IH _ _ _ _ _ Hloop) as [Hrounds [later Hlater]].
      split.
      * cbn [app]. constructor. exact Hrounds.
      * exists later. cbn [app plays]. rewrite Hlater at 1. reflexivity.
Qed.

Lemma move_loop_app rec code color beta before rest :
  forall alpha (b : board_obj B) alpha1 b1 events,
    move_loop rec code color (opponent color) alpha beta before b
    = Done alpha1 b1 events ->
    no_cutoff beta events = true ->
    plays events = before /\
    move_loop rec code color (opponent color) alpha beta (before ++ rest) b
    = match move_loop rec code color (opponent color) alpha1 beta rest b1
      with
      | Done v b' events' => Done v b' (events ++ events')
      | Raised e => Raised e
      | OutOfFuel => OutOfFuel
      end.
Proof.
  induction before as [| move before IH];
    intros alpha b alpha1 b1 events Hrun Hopen.
  - cbn [move_loop] in Hrun. injection Hrun as <- <- <-.
    split; [reflexivity |]. cbn [app].
    destruct (move_loop rec code color (opponent color) alpha beta rest b);
      reflexivity.
  - destruct (rec {| pos := play_move (pos b) move color; tt := tt b |}
                  (opponent color) (- beta) (- alpha))
      as [r b2 inner | e |] eqn:Hrec;
      [| cbn [move_loop] in Hrun; rewrite Hrec in Hrun; discriminate Hrun ..].
    change ((move :: before) ++ rest) with (move :: (before ++ rest)).
    rewrite (move_loop_cons _ _ _ _ _ _ _ _ _ _ _ Hrec) in Hrun.
    rewrite (move_loop_cons _ _ _ _ _ _ _ _ _ _ _ Hrec).
    cbn zeta in Hrun |- *.
    destruct (- r >=? beta) eqn:Hcut.
    + injection Hrun as <- <- <-. cbn [no_cutoff] in Hopen.
      apply andb_prop in Hopen as [Hlt _].
      apply Z.ltb_lt in Hlt. rewrite Z.geb_leb in Hcut.
      apply Z.leb_le in Hcut. lia.
    + match type of Hrun with
      | match ?loop with _ => _ end = _ =>
          destruct loop as [v5 b5 events5 | e |] eqn:Hloop;
          [| discriminate Hrun ..]
      end.
      injection Hrun as -> -> <-.
      cbn [app no_cutoff] in Hopen. apply andb_prop in Hopen as [_ Hopen].
      destruct (IH _ _ _ _ _ Hloop Hopen) as [Hplays Hcont].
      split; [cbn [app plays]; rewrite Hplays; reflexivity |].
      rewrite Hcont.
      destruct (move_loop rec code color (opponent color) alpha1 beta rest b1);
        reflexivity.
Qed.

End SimulateFacts.

Section SimulateClaims.
Context {B : Type} `{GoBoard B}.

(** C1, at a stored zero.  When the table holds 0 under the code of the
    position, [simulate] does not return it at once: the test [if tt_lookup:]
    reads the zero as a miss, so every call that returns has asked the
    endgame evaluator, and on a decided position the call returns 1 or -1 and
    overwrites the entry. *)
Theorem simulate_stored_zero_is_not_a_hit
        fuel (b : board_obj B) color alpha beta code :
  getCode (tt b) (pos b) = Ret code ->
  lookup (tt b) code = Some 0 ->
  (forall v b' events,
      simulate (S fuel) b color alpha beta = Done v b' events ->
      exists rest,
        events = GetCode code :: Lookup code (Some 0)
                 :: EvaluateEndgame (evaluate_endgame (pos b)) :: rest) /\
  (evaluate_endgame (pos b) <> EMPTY ->
   exists value,
     value <> 0 /\
     simulate (S fuel) b color alpha beta
     = Done value
            {| pos := pos b; tt := snd (store (tt b) code value) |}
            [GetCode code; Lookup code (Some 0);
             EvaluateEndgame (evaluate_endgame (pos b));
             GetCode code; Store code value]).
Proof.
  intros Hcode Hzero.
  assert (Hmiss : truthy (lookup (tt b) code) = false)
    by (rewrite Hzero; reflexivity).
  split.
  - intros v b' events Hrun.
    destruct (Z.eq_dec (evaluate_endgame (pos b)) EMPTY) as [Hopen | Hwinner].
    + rewrite (simulate_expand _ _ _ _ _ _ Hcode Hmiss Hopen) in Hrun.
      destruct (move_loop (simulate fuel) code color (opponent color) alpha
                          beta (generate_legal_moves (pos b) color) b)
        as [v' b'' loop_events | e |]; [| discriminate Hrun ..].
      injection Hrun as <- <- <-. rewrite Hzero, Hopen. eexists. reflexivity.
    + rewrite (simulate_decided _ _ _ _ _ _ Hcode Hmiss Hwinner) in Hrun.
      injection Hrun as <- <- <-. rewrite Hzero. eexists. reflexivity.
  - intros Hwinner.
    exists (if evaluate_endgame (pos b) =? color then 1 else -1).
    split; [destruct (evaluate_endgame (pos b) =? color); lia |].
    rewrite <- Hzero. apply simulate_decided; assumption.
Qed.

(** C3. In a call that reaches the move loop, let the moves [before] be
    examined without a cutoff and let the recursive call for the next legal
    move return [r] with [- r >= beta].  Then [simulate] returns exactly
    [beta], its last two events are the store of [- r] and the undo of that
    move, and the moves it played are [before] and that move: none of the
    legal moves after it is applied. *)
Theorem simulate_beta_cutoff
        fuel (b : board_obj B) color alpha beta code before move later
        alpha1 b1 events r b2 inner :
  getCode (tt b) (pos b) = Ret code ->
  truthy (lookup (tt b) code) = false ->
  evaluate_endgame (pos b) = EMPTY ->
  generate_legal_moves (pos b) color = before ++ move :: later ->
  move_loop (simulate fuel) code color (opponent color) alpha beta before b
  = Done alpha1 b1 events ->
  no_cutoff beta events = true ->
  simulate fuel {| pos := play_move (pos b1) move color; tt := tt b1 |}
           (opponent color) (- beta) (- alpha1) = Done r b2 inner ->
  beta <= - r ->
  let trace :=
    [GetCode code; Lookup code (lookup (tt b) code); EvaluateEndgame EMPTY;
     GenerateLegalMoves color (before ++ move :: later)]
      ++ events
      ++ [PlayMove move color;
          Simulate (opponent color) (- beta) (- alpha1) inner r;
          Store code (- r); UndoLastMove] in
  simulate (S fuel) b color alpha beta
  = Done beta
         {| pos := undoLastMove (pos b2);
            tt := snd (store (tt b2) code (- r)) |}
         trace /\
  plays trace = before ++ [move].
Proof.
  intros Hcode Hmiss Hopen Hmoves Hbefore Hnocut Hrec Hcut. cbn zeta.
  destruct (move_loop_app _ _ _ _ _ (move :: later) _ _ _ _ _ Hbefore Hnocut)
    as [Hplays Hcont].
  split.
  - rewrite (simulate_expand _ _ _ _ _ _ Hcode Hmiss Hopen).
    rewrite Hmoves, Hcont.
    rewrite (move_loop_cons _ _ _ _ _ _ _ _ _ _ _ Hrec). cbn zeta.
    replace (- r >=? beta) with true; [reflexivity |].
    symmetry. rewrite Z.geb_leb. apply Z.leb_le. exact Hcut.
  - cbn [app plays]. rewrite plays_app, Hplays. reflexivity.
Qed.

(** C4. With no entry that the hit test accepts under the code of the
    position (none, or a zero) and a winner reported by the endgame
    evaluator, [simulate] returns 1 when the winner is [color] and -1
    otherwise, stores that value under the code of the position, leaves
    the position as it is, and neither generates nor plays a move. *)
Theorem simulate_decided_position
        fuel (b : board_obj B) color alpha beta code :
  getCode (tt b) (pos b) = Ret code ->
  truthy (lookup (tt b) code) = false ->
  evaluate_endgame (pos b) <> EMPTY ->
  let winner := evaluate_endgame (pos b) in
  let value := if winner =? color then 1 else -1 in
  exists b',
    simulate (S fuel) b color alpha beta
    = Done value b'
           [GetCode code; Lookup code (lookup (tt b) code);
            EvaluateEndgame winner; GetCode code; Store code value] /\
    pos b' = pos b /\
    lookup (tt b') code = Some value /\
    (forall other, other <> code ->
                   lookup (tt b') other = lookup (tt b) other).
Proof.
  intros Hcode Hmiss Hwinner. cbn zeta.
  eexists. split; [apply simulate_decided; assumption |].
  split; [reflexivity |].
  unfold lookup, store. cbn [tt snd table].
  split; [apply lookup_insert_eq |].
  intros other Hother. apply lookup_insert_ne. congruence.
Qed.

End SimulateClaims.

Section Backtracking.
Context {B : Type} `{GoBoard B}.

(** [undoLastMove] takes back the last [play_move]. *)
Hypothesis undo_play :
  forall (p : B) (move color : Z),
    undoLastMove (play_move p move color) = p.

Lemma move_loop_restores rec code color opp beta :
  (forall b c a bt v b' events,
      rec b c a bt = Done v b' events -> restores b b' events) ->
  forall legal_moves alpha b v b' events,
    move_loop rec code color opp alpha beta legal_moves b
    = Done v b' events ->
    restores b b' events.
Proof.
  intros Hrec.
  induction legal_moves as [| move rest IH]; intros alpha b v b' events Hrun.
  - cbn [move_loop] in Hrun. injection Hrun as <- <- <-.
    split; [reflexivity | split; [intros applied; reflexivity | reflexivity]].
  - cbn [move_loop] in Hrun.
    destruct (rec {| pos := play_move (pos b) move color; tt := tt b |}
                  opp (- beta) (- alpha))
      as [r b2 inner | e |] eqn:Hcall; [| discriminate Hrun ..].
    destruct (Hrec _ _ _ _ _ _ _ Hcall) as (Hpos & Hbal & Hzob).
    cbn [pos tt] in Hpos, Hzob.
    assert (Hround : restores b
              {| pos := undoLastMove (pos b2);
                 tt := snd (store (tt b2) code (- r)) |}
              [PlayMove move color; Simulate opp (- beta) (- alpha) inner r;
               Store code (- r); UndoLastMove]).
    { split; [| split].
      - cbn [pos]. rewrite Hpos. apply undo_play.
      - apply balanced_round, Hbal.
      - exact Hzob. }
    cbn [pos tt] in Hrun.
    destruct (- r >=? beta).
    + injection Hrun as <- <- <-. exact Hround.
    + match type of Hrun with
      | match ?loop with _ => _ end = _ =>
          destruct loop as [v5 b5 events5 | e |] eqn:Hloop;
          [| discriminate Hrun ..]
      end.
      injection Hrun as <- <- <-.
      destruct Hround as (Hpos4 & Hbal4 & Hzob4).
      destruct (IH _ _ _ _ _ Hloop) as (Hpos5 & Hbal5 & Hzob5).
      split; [| split].
      * rewrite Hpos5. exact Hpos4.
      * apply (balanced_app [_; _; _; _] events5); assumption.
      * rewrite Hzob5. exact Hzob4.
Qed.

Lemma simulate_restores fuel :
  forall (b : board_obj B) color alpha beta v b' events,
    simulate fuel b color alpha beta = Done v b' events ->
    restores b b' events.
Proof.
  induction fuel as [| fuel IH]; intros b color alpha beta v b' events Hrun.
  - discriminate Hrun.
  - cbn [simulate] in Hrun.
    destruct (getCode (tt b) (pos b)) as [code | e]; [| discriminate Hrun].
    destruct (truthy (lookup (tt b) code)).
    { injection Hrun as <- <- <-.
      split; [reflexivity | split; [intros applied; reflexivity | reflexivity]]. }
    destruct (negb (evaluate_endgame (pos b) =? EMPTY)).
    { injection Hrun as <- <- <-.
      split; [reflexivity | split; [intros applied; reflexivity | reflexivity]]. }
    match type of Hrun with
    | match ?loop with _ => _ end = _ =>
        destruct loop as [v' b'' loop_events | e |] eqn:Hloop;
        [| discriminate Hrun ..]
    end.
    injection Hrun as <- <- <-.
    destruct (move_loop_restores _ _ _ _ _ IH _ _ _ _ _ _ Hloop)
      as (Hpos & Hbal & Hzob).
    split; [exact Hpos | split; [| exact Hzob]].
    apply (balanced_app [_; _; _; _] loop_events); [| exact Hbal].
    intros applied. reflexivity.
Qed.

(** The search comes back when the code of every position can be computed
    and every legal move lowers a measure of the position. *)
Section Returns.
Variable measure : B -> nat.
Variable zob : list (list (list Z)).

Hypothesis code_defined :
  forall (p : B) (t : gmap Z Z),
    exists code, getCode {| table := t; zobrist := zob |} p = Ret code.

Hypothesis move_lowers_measure :
  forall (p : B) (color move : Z),
    In move (generate_legal_moves p color) ->
    (measure (play_move p move color) < measure p)%nat.

Lemma move_loop_returns fuel code color opp beta (p : B) :
  (forall (b : board_obj B) c a bt,
      zobrist (tt b) = zob -> (measure (pos b) < fuel)%nat ->
      exists v b' events, simulate fuel b c a bt = Done v b' events) ->
  forall legal_moves,
    (forall move, In move legal_moves ->
                  (measure (play_move p move color) < fuel)%nat) ->
    forall alpha (b : board_obj B),
      pos b = p -> zobrist (tt b) = zob ->
      exists v b' events,
        move_loop (simulate fuel) code color opp alpha beta legal_moves b
        = Done v b' events.
Proof.
  intros Hrec.
  induction legal_moves as [| move rest IH]; intros Hlow alpha b Hpos Hzob.
  - cbn [move_loop]. eauto.
  - cbn [move_loop].
    destruct (Hrec {| pos := play_move (pos b) move color; tt := tt b |}
                   opp (- beta) (- alpha))
      as (r & b2 & inner & Hcall).
    { exact Hzob. }
    { cbn [pos]. rewrite Hpos. apply Hlow. left. reflexivity. }
    rewrite Hcall.
    destruct (simulate_restores _ _ _ _ _ _ _ _ Hcall)
      as (Hpos2 & _ & Hzob2).
    cbn [pos tt] in Hpos2, Hzob2 |- *.
    destruct (- r >=? beta); [eauto |].
    match goal with
    | |- context [move_loop _ _ _ _ ?a _ rest ?b4] =>
        destruct (IH (fun m Hm => Hlow m (or_intror Hm)) a b4)
          as (v5 & b5 & events5 & Hloop)
    end.
    { cbn [pos]. rewrite Hpos2, Hpos. apply undo_play. }
    { unfold store. cbn [tt snd zobrist]. congruence. }
    rewrite Hloop. eauto.
Qed.

Lemma simulate_returns fuel :
  forall (b : board_obj B) color alpha beta,
    zobrist (tt b) = zob -> (measure (pos b) < fuel)%nat ->
    exists v b' events, simulate fuel b color alpha beta = Done v b' events.
Proof.
  induction fuel as [| fuel IH]; intros b color alpha beta Hzob Hfuel.
  - lia.
  - cbn [simulate].
    destruct (code_defined (pos b) (table (tt b))) as [code Hcode].
    rewrite <- Hzob, <- TranspositionTable_eta in Hcode.
    rewrite Hcode.
    destruct (truthy (lookup (tt b) code)); [eauto |].
    destruct (negb (evaluate_endgame (pos b) =? EMPTY)); [eauto |].
    destruct (move_loop_returns fuel code color (opponent color) beta
                (pos b) IH (generate_legal_moves (pos b) color))
      with (alpha := alpha) (b := b)
      as (v & b' & events & Hloop); try reflexivity; try assumption.
    { intros move Hmove.
      pose proof (move_lowers_measure _ _ _ Hmove). lia. }
    rewrite Hloop. eauto.
Qed.
End Returns.

(** C5. When [undoLastMove] takes back the last [play_move], a call of
    [simulate] that returns leaves the position as it found it, whichever
    way it returns, and its plays and undos pair up like brackets, each
    undo taking back the last move still applied.  The call does return
    when every legal move lowers a measure of the position and the code of
    every position can be computed. *)
Theorem simulate_restores_board :
  (forall fuel (b : board_obj B) color alpha beta v b' events,
      simulate fuel b color alpha beta = Done v b' events ->
      pos b' = pos b /\ balanced events) /\
  (forall (measure : B -> nat) (b : board_obj B) color alpha beta,
      (forall (p : B) (t : gmap Z Z),
          exists code,
            getCode {| table := t; zobrist := zobrist (tt b) |} p
            = Ret code) ->
      (forall (p : B) (c move : Z),
          In move (generate_legal_moves p c) ->
          (measure (play_move p move c) < measure p)%nat) ->
      exists v b' events,
        simulate (S (measure (pos b))) b color alpha beta
        = Done v b' events /\
        pos b' = pos b /\ balanced events).
Proof.
  split.
  - intros fuel b color alpha beta v b' events Hrun.
    destruct (simulate_restores _ _ _ _ _ _ _ _ Hrun) as (Hpos & Hbal & _).
    split; assumption.
  - intros measure b color alpha beta Hcode Hlower.
    destruct (simulate_returns measure (zobrist (tt b)) Hcode Hlower
                (S (measure (pos b))) b color alpha beta)
      as (v & b' & events & Hrun); [reflexivity | lia |].
    exists v, b', events. split; [exact Hrun |].
    destruct (simulate_restores _ _ _ _ _ _ _ _ Hrun) as (Hpos & Hbal & _).
    split; assumption.
Qed.

End Backtracking.

(** ** The search on the two by two board *)

Lemma toy_undo_play (p : toy) (move color : Z) :
  undoLastMove (play_move p move color) = p.
Proof. reflexivity. Qed.

Lemma toy_get_twoD_board (p : toy) :
  get_twoD_board p
  = Ret [[to_int32 (toy_color_at p 4); to_int32 (toy_color_at p 5)];
         [to_int32 (toy_color_at p 7); to_int32 (toy_color_at p 8)]].
Proof. reflexivity. Qed.

Lemma toy_getCode_cell (t : gmap Z Z) (c4 c5 c7 c8 : Z) (i j : nat) (hash : Z) :
  (i < 2)%nat -> (j < 2)%nat ->
  exists hash',
    getCode_cell {| table := t; zobrist := zobrist toy_tt |}
                 [[c4; c5]; [c7; c8]] i j hash = Ret hash'.
Proof.
  intros Hi Hj.
  destruct i as [| [| i]]; [| | lia];
    (destruct j as [| [| j]]; [| | lia]);
    cbv -[Z.lxor Z.eqb];
    match goal with
    | |- context [?c =? 0] =>
        destruct (c =? 0); [eauto |];
        destruct (c =? 1); [eauto |];
        destruct (c =? 2); eauto
    end.
Qed.

Lemma toy_code_defined (p : toy) (t : gmap Z Z) :
  exists code, getCode {| table := t; zobrist := zobrist toy_tt |} p = Ret code.
Proof.
  unfold getCode. rewrite toy_get_twoD_board.
  unfold range. cbn [py_for seq size toy_GoBoard].
  cbv beta iota delta [mbind py_bind].
  repeat match goal with
  | |- context [getCode_cell ?s ?b ?i ?j ?h] =>
      let h' := fresh "hash" in
      let Hh := fresh "Hcell" in
      destruct (toy_getCode_cell t (to_int32 (toy_color_at p 4))
                  (to_int32 (toy_color_at p 5)) (to_int32 (toy_color_at p 7))
                  (to_int32 (toy_color_at p 8)) i j h)
        as [h' Hh]; [lia | lia |];
      rewrite Hh; cbv beta iota delta [mbind py_bind]
  end.
  eauto.
Qed.

Lemma toy_color_at_play (p : toy) (move color q : Z) :
  toy_color_at (play_move p move color) q
  = if move =? q then color else toy_color_at p q.
Proof.
  unfold toy_color_at. cbn [play_move toy_GoBoard List.find fst snd].
  destruct (move =? q); reflexivity.
Qed.

Lemma toy_move_lowers_measure (p : toy) (color move : Z) :
  In move (generate_legal_moves p color) ->
  (toy_measure (play_move p move color) < toy_measure p)%nat.
Proof.
  unfold generate_legal_moves. intros Hin.
  apply filter_In in Hin as [Hin Hlegal].
  cbn [get_empty_points toy_GoBoard] in Hin.
  apply filter_In in Hin as [Hpoint Hempty].
  cbn [is_legal toy_GoBoard] in Hlegal.
  apply andb_prop in Hlegal as [_ Hcolor].
  assert (Hc : (color =? EMPTY) = false).
  { unfold is_black_white, BLACK, WHITE, EMPTY in *. lia. }
  unfold toy_measure. cbn [get_empty_points toy_GoBoard].
  unfold toy_points in *. cbn [List.filter].
  rewrite !toy_color_at_play.
  cbn [In] in Hpoint.
  destruct Hpoint as [<- | [<- | [<- | [<- | []]]]];
    cbn [Z.eqb Pos.eqb]; rewrite Hc, ?Hempty;
    repeat match goal with
           | |- context [toy_color_at p ?q =? EMPTY] =>
               destruct (toy_color_at p q =? EMPTY)
           end;
    cbn [length]; lia.
Qed.

(** A search with the window (0, 1) leaves a zero in the table, under the
    code of the position it was asked about. *)
Example simulate_stores_zero_on_toy :
  exists b' events,
    simulate 5 (toy_obj [(4, 1); (7, 2)] []) BLACK 0 1 = Done 0 b' events /\
    pos b' = [(4, 1); (7, 2)] /\
    map_to_list (table (tt b')) = [(37, 0); (97, 0); (33, 0)].
Proof.
  eexists _, _. split; [vm_compute; reflexivity |].
  split; vm_compute; reflexivity.
Qed.

Lemma simulate_stored_zero_on_toy :
  (forall v b' events,
      simulate 5 (toy_obj [(4, 1); (7, 2)] [(37, 0); (97, 0); (33, 0)])
               BLACK (-1) 1 = Done v b' events ->
      exists rest,
        events = GetCode 33 :: Lookup 33 (Some 0)
                 :: EvaluateEndgame EMPTY :: rest) /\
  (BLACK <> EMPTY ->
   exists value,
     value <> 0 /\
     simulate 1 (toy_obj [(7, 1); (4, 1)] [(17, 0)]) BLACK (-1) 1
     = Done value
            {| pos := [(7, 1); (4, 1)];
               tt := snd (store (tt (toy_obj [(7, 1); (4, 1)] [(17, 0)]))
                                17 value) |}
            [GetCode 17; Lookup 17 (Some 0); EvaluateEndgame BLACK;
             GetCode 17; Store 17 value]).
Proof.
  split.
  - refine (proj1 (simulate_stored_zero_is_not_a_hit
                     4 (toy_obj [(4, 1); (7, 2)] [(37, 0); (97, 0); (33, 0)])
                     BLACK (-1) 1 33 _ _)).
    + vm_compute. reflexivity.
    + vm_compute. reflexivity.
  - refine (proj2 (simulate_stored_zero_is_not_a_hit
                     0 (toy_obj [(7, 1); (4, 1)] [(17, 0)]) BLACK (-1) 1 17
                     _ _)).
    + vm_compute. reflexivity.
    + vm_compute. reflexivity.
Defined.

(** On that table the second search does not return the stored zero: it
    runs the whole loop again and returns -1. *)
Example simulate_searches_again_on_toy :
  exists b' events,
    simulate 5 (toy_obj [(4, 1); (7, 2)] [(37, 0); (97, 0); (33, 0)])
             BLACK (-1) 1 = Done (-1) b' events /\
    plays events = [5; 8].
Proof.
  eexists _, _. split; vm_compute; reflexivity.
Qed.

(** In the search for black from the position with one white stone, the two
    positions reached by a move have the codes 6 and 18, and both values are
    stored under 2, the code of the position the search was asked about; the
    third legal move is not played. *)
Example simulate_children_codes_on_toy :
  exists b' inner1 inner2,
    simulate 5 (toy_obj [(4, 2)] []) BLACK (-1) 1
    = Done 1 b'
           [GetCode 2; Lookup 2 None; EvaluateEndgame EMPTY;
            GenerateLegalMoves BLACK [5; 7; 8];
            PlayMove 5 BLACK;
            Simulate WHITE (-1) 1 (GetCode 6 :: inner1) 1;
            Store 2 (-1); UndoLastMove;
            PlayMove 7 BLACK;
            Simulate WHITE (-1) 1 (GetCode 18 :: inner2) (-1);
            Store 2 1; UndoLastMove] /\
    lookup (tt b') 2 = Some 1.
Proof.
  eexists _, _, _. split; vm_compute; reflexivity.
Qed.

Lemma simulate_beta_cutoff_on_toy :
  exists b' trace,
    generate_legal_moves [(4, 2)] BLACK = [5; 7; 8] /\
    simulate 5 (toy_obj [(4, 2)] []) BLACK (-1) 1 = Done 1 b' trace /\
    plays trace = [5; 7].
Proof.
  eexists _, _. split; [reflexivity |].
  refine (simulate_beta_cutoff
            4 (toy_obj [(4, 2)] []) BLACK (-1) 1 2 [5] 7 [8]
            _ _ _ _ _ _ _ _ _ _ _ _ _ _).
  - vm_compute. reflexivity.
  - vm_compute. reflexivity.
  - vm_compute. reflexivity.
  - vm_compute. reflexivity.
  - vm_compute. reflexivity.
  - vm_compute. reflexivity.
  - vm_compute. reflexivity.
  - vm_compute. discriminate.
Defined.

Lemma simulate_decided_position_on_toy :
  exists b',
    simulate 1 (toy_obj [(7, 1); (4, 1)] []) WHITE (-1) 1
    = Done (-1) b'
           [GetCode 17; Lookup 17 None; EvaluateEndgame BLACK;
            GetCode 17; Store 17 (-1)] /\
    pos b' = [(7, 1); (4, 1)] /\
    lookup (tt b') 17 = Some (-1) /\
    (forall other, other <> 17 ->
                   lookup (tt b') other
                   = lookup (tt (toy_obj [(7, 1); (4, 1)] [])) other).
Proof.
  refine (simulate_decided_position
            0 (toy_obj [(7, 1); (4, 1)] []) WHITE (-1) 1 17 _ _ _).
  - vm_compute. reflexivity.
  - vm_compute. reflexivity.
  - vm_compute. discriminate.
Defined.

Lemma simulate_restores_board_on_toy :
  exists v b' events,
    simulate (S (toy_measure [(4, 2)])) (toy_obj [(4, 2)] []) BLACK (-1) 1
    = Done v b' events /\
    pos b' = [(4, 2)] /\ balanced events.
Proof.
  exact (proj2 (simulate_restores_board toy_undo_play)
               toy_measure (toy_obj [(4, 2)] []) BLACK (-1) 1
               toy_code_defined toy_move_lowers_measure).
Defined.

(** * Further properties *)

(** ** Coordinate codec: errors, range and order *)

Lemma coord_to_point_invalid (row col boardsize : Z) :
  ~ (1 <= row <= boardsize /\ 1 <= col <= boardsize) ->
  coord_to_point row col boardsize = Raise AssertionError.
Proof.
  intros Hout. unfold coord_to_point.
  destruct (Z.leb_spec 1 row), (Z.leb_spec row boardsize),
    (Z.leb_spec 1 col), (Z.leb_spec col boardsize);
    cbn [negb]; try reflexivity.
  exfalso. apply Hout. lia.
Qed.

Lemma coord_to_point_Ret_inv (row col boardsize p : Z) :
  coord_to_point row col boardsize = Ret p ->
  (1 <= row <= boardsize /\ 1 <= col <= boardsize) /\
  p = (boardsize + 1) * row + col.
Proof.
  intros Hp.
  destruct (Z_le_dec 1 row), (Z_le_dec row boardsize),
    (Z_le_dec 1 col), (Z_le_dec col boardsize);
    try (rewrite coord_to_point_invalid in Hp by lia; discriminate Hp).
  rewrite coord_to_point_valid in Hp by lia.
  injection Hp as <-. split; [lia | reflexivity].
Qed.

(** X1. [coord_to_point] returns (boardsize + 1) * row + col when
    1 <= row, col <= boardsize, and one of its four assertions fails for every
    other input: it never returns a point for a coordinate off the board. *)
Theorem coord_to_point_asserts (row col boardsize : Z) :
  (1 <= row <= boardsize /\ 1 <= col <= boardsize ->
   coord_to_point row col boardsize = Ret ((boardsize + 1) * row + col)) /\
  (~ (1 <= row <= boardsize /\ 1 <= col <= boardsize) ->
   coord_to_point row col boardsize = Raise AssertionError) /\
  (forall p, coord_to_point row col boardsize = Ret p ->
             1 <= row <= boardsize /\ 1 <= col <= boardsize).
Proof.
  split; [| split].
  - intros [Hrow Hcol]. apply coord_to_point_valid; assumption.
  - apply coord_to_point_invalid.
  - intros p Hp. apply (coord_to_point_Ret_inv _ _ _ _ Hp).
Qed.

Lemma coord_to_point_asserts_examples :
  coord_to_point 3 3 3 = Ret 15 /\
  coord_to_point 0 1 3 = Raise AssertionError /\
  coord_to_point 1 4 3 = Raise AssertionError.
Proof.
  split; [| split].
  - apply (proj1 (coord_to_point_asserts 3 3 3)). lia.
  - apply (proj1 (proj2 (coord_to_point_asserts 0 1 3))). lia.
  - apply (proj1 (proj2 (coord_to_point_asserts 1 4 3))). lia.
Defined.

(** X2. A point returned by [coord_to_point] lies between boardsize + 2 and
    (boardsize + 1)^2 - 1, is not NULLPOINT, and is not a multiple of
    boardsize + 1, the indices of the border column; and the points of two
    coordinates of one board are ordered as the coordinates are, row first. *)
Theorem coord_to_point_inside_and_ordered (row col boardsize p : Z) :
  coord_to_point row col boardsize = Ret p ->
  boardsize + 2 <= p <= (boardsize + 1) * (boardsize + 1) - 1 /\
  p <> NULLPOINT /\
  p mod (boardsize + 1) <> 0 /\
  (forall row' col' p',
      coord_to_point row' col' boardsize = Ret p' ->
      (p < p' <-> row < row' \/ (row = row' /\ col < col'))).
Proof.
  intros Hp.
  destruct (coord_to_point_Ret_inv _ _ _ _ Hp) as [[Hrow Hcol] ->].
  split; [nia |]. split; [unfold NULLPOINT; nia |]. split.
  - rewrite Z.add_comm, Z.mul_comm, Z.mod_add by lia.
    rewrite Z.mod_small by lia. lia.
  - intros row' col' p' Hp'.
    destruct (coord_to_point_Ret_inv _ _ _ _ Hp') as [[Hrow' Hcol'] ->].
    split; intros Hlt; nia.
Qed.

Lemma coord_to_point_inside_and_ordered_3x3 :
  3 + 2 <= 11 <= (3 + 1) * (3 + 1) - 1 /\
  11 <> NULLPOINT /\
  11 mod (3 + 1) <> 0 /\
  (forall row' col' p',
      coord_to_point row' col' 3 = Ret p' ->
      (11 < p' <-> 2 < row' \/ (2 = row' /\ 3 < col'))).
Proof.
  apply (coord_to_point_inside_and_ordered 2 3 3 11). reflexivity.
Defined.

Lemma point_to_coord_some (p boardsize : Z) :
  boardsize <> -1 ->
  point_to_coord (Some p) boardsize
  = Ret (Some (p / (boardsize + 1), p mod (boardsize + 1))).
Proof.
  intros Hbs. unfold point_to_coord, divmod.
  destruct (Z.eqb_spec (boardsize + 1) 0); [lia | reflexivity].
Qed.

(** X3. For a board size of at least 0, [point_to_coord] maps every point
    to a pair (row, col) with 0 <= col <= boardsize and
    (boardsize + 1) * row + col equal to the point; when the pair is a
    coordinate of the board, [coord_to_point] maps it back to the point. *)
Theorem coord_to_point_inverts_point_to_coord (p boardsize : Z) :
  0 <= boardsize ->
  exists row col,
    point_to_coord (Some p) boardsize = Ret (Some (row, col)) /\
    0 <= col <= boardsize /\
    (boardsize + 1) * row + col = p /\
    (1 <= row <= boardsize -> 1 <= col ->
     coord_to_point row col boardsize = Ret p).
Proof.
  intros Hbs.
  exists (p / (boardsize + 1)), (p mod (boardsize + 1)).
  pose proof (Z.mod_pos_bound p (boardsize + 1) ltac:(lia)) as Hmod.
  pose proof (Z.div_mod p (boardsize + 1) ltac:(lia)) as Hdiv.
  split; [apply point_to_coord_some; lia |].
  split; [lia |]. split; [lia |].
  intros Hrow Hcol. rewrite coord_to_point_valid by lia. f_equal. lia.
Qed.

Lemma coord_to_point_inverts_point_to_coord_3x3 :
  exists row col,
    point_to_coord (Some 14) 3 = Ret (Some (row, col)) /\
    0 <= col <= 3 /\
    (3 + 1) * row + col = 14 /\
    (1 <= row <= 3 -> 1 <= col -> coord_to_point row col 3 = Ret 14).
Proof. apply (coord_to_point_inverts_point_to_coord 14 3). lia. Defined.

(** X4. [point_to_coord] returns PASS for PASS whatever the board size, and
    for a point it raises exactly when the board size is -1, where the
    divisor of [divmod] is zero; the error is ZeroDivisionError. *)
Theorem point_to_coord_pass_and_zero_division (boardsize : Z) :
  point_to_coord PASS boardsize = Ret PASS /\
  forall p,
    (boardsize = -1 ->
     point_to_coord (Some p) boardsize = Raise ZeroDivisionError) /\
    (boardsize <> -1 ->
     exists rc, point_to_coord (Some p) boardsize = Ret (Some rc)).
Proof.
  split; [reflexivity |]. intros p. split.
  - intros ->. reflexivity.
  - intros Hbs. eexists. apply point_to_coord_some. exact Hbs.
Qed.

Lemma point_to_coord_pass_and_zero_division_examples :
  point_to_coord (Some 7) (-1) = Raise ZeroDivisionError /\
  exists rc, point_to_coord (Some (-7)) (-3) = Ret (Some rc).
Proof.
  split.
  - apply (proj1 (proj2 (point_to_coord_pass_and_zero_division (-1)) 7)).
    reflexivity.
  - apply (proj2 (proj2 (point_to_coord_pass_and_zero_division (-3)) (-7))).
    lia.
Defined.

(** ** Formatting a point: the letter, the board sizes and injectivity *)

Lemma format_point_Ret_inv (row col : Z) (s : string) :
  format_point (Some (row, col)) = Ret s ->
  0 <= row < 25 /\ 0 <= col < 25.
Proof.
  intros Hs.
  destruct (Z_le_dec 0 row), (Z_lt_dec row 25),
    (Z_le_dec 0 col), (Z_lt_dec col 25);
    try (rewrite format_point_out_of_range in Hs by lia; discriminate Hs).
  lia.
Qed.

Lemma str_index_column_letters_nth (col : Z) :
  1 <= col < 25 ->
  exists letter,
    str_index column_letters (col - 1) = Ret letter /\
    nth_error (list_ascii_of_string column_letters) (Z.to_nat (col - 1))
    = Some letter.
Proof.
  intros Hcol.
  assert (Hn : exists n : nat, (n < 24)%nat /\ col = Z.of_nat n + 1).
  { exists (Z.to_nat (col - 1)). lia. }
  destruct Hn as (n & Hn & ->).
  do 24 (destruct n as [| n];
         [ eexists; split; vm_compute; reflexivity | ]).
  lia.
Qed.

Lemma str_index_column_letters_inj (col1 col2 : Z) :
  0 <= col1 < 25 -> 0 <= col2 < 25 ->
  str_index column_letters (col1 - 1) = str_index column_letters (col2 - 1) ->
  col1 = col2.
Proof.
  intros H1 H2.
  assert (Hn1 : exists n : nat, (n < 25)%nat /\ col1 = Z.of_nat n).
  { exists (Z.to_nat col1). lia. }
  assert (Hn2 : exists n : nat, (n < 25)%nat /\ col2 = Z.of_nat n).
  { exists (Z.to_nat col2). lia. }
  destruct Hn1 as (n1 & Hn1 & ->). destruct Hn2 as (n2 & Hn2 & ->).
  clear H1 H2.
  do 25 (destruct n1 as [| n1];
         [ do 25 (destruct n2 as [| n2];
                  [ intros Heq;
                    first [reflexivity | vm_compute in Heq; discriminate Heq]
                  | ]);
           lia
         | ]).
  lia.
Qed.

Lemma str_inj (n m : Z) : str n = str m -> n = m.
Proof.
  unfold str. intros Heq. apply to_int_inj.
  assert (Hnonnil : forall z, Z.to_int z <> Decimal.Pos Decimal.Nil /\
                              Z.to_int z <> Decimal.Neg Decimal.Nil).
  { intros [| p | p]; cbn [Z.to_int]; split; try discriminate;
      intros [= Hnil]; exact (Unsigned.to_uint_nonnil p Hnil). }
  pose proof (NilZero.isi (Z.to_int n) (proj1 (Hnonnil n)) (proj2 (Hnonnil n)))
    as Hn.
  pose proof (NilZero.isi (Z.to_int m) (proj1 (Hnonnil m)) (proj2 (Hnonnil m)))
    as Hm.
  rewrite Heq in Hn. congruence.
Qed.

(** X5. For a coordinate of a board smaller than MAXSIZE, encoding it with
    [coord_to_point], decoding the point with [point_to_coord] and formatting
    the result gives the letter number col of the alphabet (A for column 1)
    followed by the row.  On a larger board, MAXSIZE itself included, the
    same chain raises ValueError for row 25 and for column 25. *)
Theorem format_point_of_board_point (row col boardsize : Z) :
  1 <= row <= boardsize -> 1 <= col <= boardsize ->
  exists p,
    coord_to_point row col boardsize = Ret p /\
    point_to_coord (Some p) boardsize = Ret (Some (row, col)) /\
    (row < MAXSIZE /\ col < MAXSIZE ->
     exists letter,
       nth_error (list_ascii_of_string column_letters) (Z.to_nat (col - 1))
       = Some letter /\
       format_point (Some (row, col)) = Ret (String letter (str row))) /\
    (MAXSIZE <= row \/ MAXSIZE <= col ->
     format_point (Some (row, col)) = Raise ValueError).
Proof.
  intros Hrow Hcol. exists ((boardsize + 1) * row + col).
  split; [apply coord_to_point_valid; assumption |].
  split.
  { rewrite point_to_coord_some by lia. do 2 f_equal.
    pose proof (divmod_row_col row col (boardsize + 1) ltac:(lia)) as Hdm.
    unfold divmod in Hdm.
    destruct (Z.eqb_spec (boardsize + 1) 0); [lia |].
    injection Hdm as -> ->. reflexivity. }
  unfold MAXSIZE. split.
  - intros [Hr Hc].
    destruct (str_index_column_letters_nth col ltac:(lia))
      as (letter & Hidx & Hnth).
    exists letter. split; [exact Hnth |].
    rewrite format_point_in_range by lia. rewrite Hidx. reflexivity.
  - intros Hbig. apply format_point_out_of_range. lia.
Qed.

Lemma format_point_of_board_point_examples :
  (exists p,
      coord_to_point 19 9 19 = Ret p /\
      point_to_coord (Some p) 19 = Ret (Some (19, 9)) /\
      (19 < MAXSIZE /\ 9 < MAXSIZE ->
       exists letter,
         nth_error (list_ascii_of_string column_letters) (Z.to_nat (9 - 1))
         = Some letter /\
         format_point (Some (19, 9)) = Ret (String letter (str 19))) /\
      (MAXSIZE <= 19 \/ MAXSIZE <= 9 ->
       format_point (Some (19, 9)) = Raise ValueError)) /\
  format_point (Some (19, 9)) = Ret "J19"%string /\
  format_point (Some (3, 25)) = Raise ValueError.
Proof.
  split; [apply (format_point_of_board_point 19 9 19); lia |].
  split; reflexivity.
Defined.

Lemma format_point_same_string (row1 col1 row2 col2 : Z) (s : string) :
  format_point (Some (row1, col1)) = Ret s ->
  format_point (Some (row2, col2)) = Ret s ->
  (row1, col1) = (row2, col2).
Proof.
  intros H1 H2.
  destruct (format_point_Ret_inv _ _ _ H1) as [Hr1 Hc1].
  destruct (format_point_Ret_inv _ _ _ H2) as [Hr2 Hc2].
  rewrite format_point_in_range in H1, H2 by assumption.
  destruct (str_index_column_letters col1 Hc1) as (l1 & Hl1 & _).
  destruct (str_index_column_letters col2 Hc2) as (l2 & Hl2 & _).
  rewrite Hl1 in H1. rewrite Hl2 in H2.
  cbv beta iota delta [mbind py_bind] in H1, H2.
  rewrite <- H2 in H1. injection H1 as Hletter Hstr.
  f_equal.
  - apply str_inj. exact Hstr.
  - apply str_index_column_letters_inj; [assumption .. |]. congruence.
Qed.

(** X6. Two different pairs that [format_point] accepts get different
    strings: no label names two points. *)
Theorem format_point_inj (row1 col1 row2 col2 : Z) (s1 s2 : string) :
  (row1, col1) <> (row2, col2) ->
  format_point (Some (row1, col1)) = Ret s1 ->
  format_point (Some (row2, col2)) = Ret s2 ->
  s1 <> s2.
Proof.
  intros Hne H1 H2 Heq. subst s2.
  apply Hne. exact (format_point_same_string _ _ _ _ _ H1 H2).
Qed.

Lemma format_point_inj_example :
  format_point (Some (7, 0)) = Ret "Z7"%string /\
  format_point (Some (7, 24)) = Ret "Y7"%string /\
  "Z7"%string <> "Y7"%string.
Proof.
  split; [reflexivity |]. split; [reflexivity |].
  apply (format_point_inj 7 0 7 24); [congruence | reflexivity ..].
Defined.

(** ** Transposition table: a run of stores *)

Lemma lookup_store_all_zobrist (tt : TranspositionTable)
      (entries : list (Z * Z)) :
  zobrist (store_all tt entries) = zobrist tt.
Proof.
  revert tt. induction entries as [| [c v] entries IH]; intros tt.
  - reflexivity.
  - change (store_all tt ((c, v) :: entries))
      with (store_all (snd (store tt c v)) entries).
    rewrite IH. reflexivity.
Qed.

(** X7. After any run of [store] calls a [lookup] returns the score of the
    last call that named the code, and what the table held before the run
    when none did; the Zobrist numbers are the ones the table had. *)
Theorem lookup_store_all (tt : TranspositionTable) (entries : list (Z * Z))
        (code : Z) :
  lookup (store_all tt entries) code
  = match last_stored entries code with
    | Some v => Some v
    | None => lookup tt code
    end /\
  zobrist (store_all tt entries) = zobrist tt.
Proof.
  revert tt. induction entries as [| [c v] entries IH]; intros tt.
  - split; reflexivity.
  - change (store_all tt ((c, v) :: entries))
      with (store_all (snd (store tt c v)) entries).
    destruct (IH (snd (store tt c v))) as [Hlookup _].
    split; [| rewrite lookup_store_all_zobrist; reflexivity].
    rewrite Hlookup. cbn [last_stored].
    destruct (last_stored entries code); [reflexivity |].
    unfold lookup, store. cbn [snd table].
    destruct (Z.eqb_spec c code) as [-> | Hne].
    + apply lookup_insert_eq.
    + apply lookup_insert_ne. exact Hne.
Qed.

(** ** The two-dimensional board *)

Lemma py_for_app {A S : Type} (items1 items2 : list A)
      (body : A -> S -> py S) (s : S) :
  py_for (items1 ++ items2) body s
  = match py_for items1 body s with
    | Ret s' => py_for items2 body s'
    | Raise e => Raise e
    end.
Proof.
  revert s. induction items1 as [| x items1 IH]; intros s; [reflexivity |].
  cbn [app py_for]. cbv beta iota delta [mbind py_bind].
  destruct (body x s); [apply IH | reflexivity].
Qed.

Lemma py_for_Ret_fold {A S : Type} (items : list A) (body : A -> S -> py S)
      (f : S -> A -> S) :
  (forall x s, In x items -> body x s = Ret (f s x)) ->
  forall s, py_for items body s = Ret (fold_left f items s).
Proof.
  induction items as [| x items IH]; intros Hbody s; [reflexivity |].
  cbn [py_for fold_left]. rewrite Hbody by (left; reflexivity).
  cbv beta iota delta [mbind py_bind].
  apply IH. intros y s' Hy. apply Hbody. right. exact Hy.
Qed.

Lemma to_int32_range (z : Z) : in_int32 (to_int32 z).
Proof.
  unfold in_int32, to_int32.
  pose proof (Z.mod_pos_bound (z + 2 ^ 31) (2 ^ 32) eq_refl) as Hmod.
  change (2 ^ 32) with 4294967296 in *. change (2 ^ 31) with 2147483648 in *.
  lia.
Qed.

Lemma to_int32_id (z : Z) : in_int32 z -> to_int32 z = z.
Proof.
  unfold in_int32, to_int32. intros Hz.
  change (2 ^ 32) with 4294967296 in *. change (2 ^ 31) with 2147483648 in *.
  rewrite Z.mod_small; lia.
Qed.

Lemma to_int32_congruent (z : Z) : (to_int32 z - z) mod 2 ^ 32 = 0.
Proof.
  unfold to_int32.
  rewrite (Z.mod_eq (z + 2 ^ 31) (2 ^ 32)) by discriminate.
  replace (z + 2 ^ 31 - 2 ^ 32 * ((z + 2 ^ 31) / 2 ^ 32) - 2 ^ 31 - z)
    with (- ((z + 2 ^ 31) / 2 ^ 32) * 2 ^ 32) by ring.
  apply Z.mod_mul. discriminate.
Qed.

Lemma map_to_int32_range (values : list Z) :
  Forall in_int32 (map to_int32 values).
Proof.
  induction values as [| x values IH]; constructor;
    [apply to_int32_range | exact IH].
Qed.

Lemma map_to_int32_id (values : list Z) :
  Forall in_int32 values -> map to_int32 values = values.
Proof.
  induction 1 as [| x values Hx _ IH]; [reflexivity |].
  cbn [map]. rewrite (to_int32_id x Hx), IH. reflexivity.
Qed.

Lemma slice_int32 (l : list Z) (start n : nat) :
  Forall in_int32 l -> Forall in_int32 (slice l start n).
Proof.
  intros Hl. unfold slice. apply Forall_take, Forall_drop, Hl.
Qed.

Lemma assign_row_shape (board2d : list (list Z)) (row n : nat)
      (values : list Z) (board2d' : list (list Z)) :
  board_shape n board2d ->
  assign_row board2d row n values = Ret board2d' ->
  board_shape n board2d'.
Proof.
  intros [Hlen Hrows] Hassign. unfold assign_row in Hassign.
  assert (Hinsert : forall new, length new = n ->
                                board_shape n (<[row := new]> board2d)).
  { intros new Hnew. split; [rewrite length_insert; exact Hlen |].
    apply Forall_insert; assumption. }
  destruct (Nat.eqb_spec (length values) n) as [Hn | Hn].
  - injection Hassign as <-. apply Hinsert. rewrite length_map. exact Hn.
  - destruct values as [| x [| y values]]; try discriminate Hassign.
    injection Hassign as <-. apply Hinsert, repeat_length.
Qed.

(** Whatever is assigned, the cells of the array stay 32-bit values. *)
Lemma assign_row_int32 (board2d : list (list Z)) (row n : nat)
      (values : list Z) (board2d' : list (list Z)) :
  Forall (Forall in_int32) board2d ->
  assign_row board2d row n values = Ret board2d' ->
  Forall (Forall in_int32) board2d'.
Proof.
  intros Hcells Hassign. unfold assign_row in Hassign.
  destruct (length values =? n)%nat.
  - injection Hassign as <-.
    apply Forall_insert; [exact Hcells | apply map_to_int32_range].
  - destruct values as [| x [| y values]]; try discriminate Hassign.
    injection Hassign as <-. apply Forall_insert; [exact Hcells |].
    apply List.Forall_forall. intros c Hc.
    apply repeat_spec in Hc. subst c. apply to_int32_range.
Qed.

Lemma assign_row_fits (board2d : list (list Z)) (row n : nat)
      (values : list Z) :
  length values = n ->
  assign_row board2d row n values
  = Ret (<[row := map to_int32 values]> board2d).
Proof.
  intros Hn. unfold assign_row. rewrite Hn, Nat.eqb_refl. reflexivity.
Qed.

Lemma assign_row_short (board2d : list (list Z)) (row n : nat)
      (values : list Z) :
  length values <> n -> length values <> 1%nat ->
  assign_row board2d row n values = Raise ValueError.
Proof.
  intros Hn H1. unfold assign_row.
  destruct (Nat.eqb_spec (length values) n) as [Heq | _]; [contradiction |].
  destruct values as [| x [| y values]]; try reflexivity.
  exfalso. apply H1. reflexivity.
Qed.

Lemma py_for_assign_row_shape (b_board : list Z) (starts : nat -> nat)
      (n : nat) (rows : list nat) :
  forall board2d board2d',
    board_shape n board2d ->
    py_for rows (fun row board2d =>
                   assign_row board2d row n (slice b_board (starts row) n))
           board2d = Ret board2d' ->
    board_shape n board2d'.
Proof.
  induction rows as [| row rows IH]; intros board2d board2d' Hshape Hrun.
  - injection Hrun as <-. exact Hshape.
  - cbn [py_for] in Hrun. cbv beta iota delta [mbind py_bind] in Hrun.
    destruct (assign_row board2d row n (slice b_board (starts row) n))
      as [board2d1 | e] eqn:Hassign; [| discriminate Hrun].
    apply (IH _ _ (assign_row_shape _ _ _ _ _ Hshape Hassign) Hrun).
Qed.

Lemma py_for_assign_row_int32 (b_board : list Z) (starts : nat -> nat)
      (n : nat) (rows : list nat) :
  forall board2d board2d',
    Forall (Forall in_int32) board2d ->
    py_for rows (fun row board2d =>
                   assign_row board2d row n (slice b_board (starts row) n))
           board2d = Ret board2d' ->
    Forall (Forall in_int32) board2d'.
Proof.
  induction rows as [| row rows IH]; intros board2d board2d' Hcells Hrun.
  - injection Hrun as <-. exact Hcells.
  - cbn [py_for] in Hrun. cbv beta iota delta [mbind py_bind] in Hrun.
    destruct (assign_row board2d row n (slice b_board (starts row) n))
      as [board2d1 | e] eqn:Hassign; [| discriminate Hrun].
    apply (IH _ _ (assign_row_int32 _ _ _ _ _ Hcells Hassign) Hrun).
Qed.

Lemma zeros_shape (n : nat) : board_shape n (repeat (repeat 0 n) n).
Proof.
  split; [apply repeat_length |].
  apply List.Forall_forall. intros row Hrow.
  apply repeat_spec in Hrow. subst row. apply repeat_length.
Qed.

Lemma zeros_int32 (n : nat) : Forall (Forall in_int32) (repeat (repeat 0 n) n).
Proof.
  apply List.Forall_forall. intros row Hrow.
  apply repeat_spec in Hrow. subst row.
  apply List.Forall_forall. intros c Hc.
  apply repeat_spec in Hc. subst c. unfold in_int32.
  change (2 ^ 31) with 2147483648. lia.
Qed.

Section TwoDBoard.
Context {B : Type} `{GoBoard B}.

Lemma get_twoD_board_shape (b : B) (twoD_board : list (list Z)) :
  get_twoD_board b = Ret twoD_board ->
  board_shape (size b) twoD_board.
Proof.
  unfold get_twoD_board. cbn zeta. intros Hrun.
  apply (py_for_assign_row_shape (board b)
           (fun row => row_start b (row + 1)%nat) (size b) _ _ _
           (zeros_shape (size b)) Hrun).
Qed.

Lemma get_twoD_board_int32 (b : B) (twoD_board : list (list Z)) :
  get_twoD_board b = Ret twoD_board ->
  Forall (Forall in_int32) twoD_board.
Proof.
  unfold get_twoD_board. cbn zeta. intros Hrun.
  apply (py_for_assign_row_int32 (board b)
           (fun row => row_start b (row + 1)%nat) (size b) _ _ _
           (zeros_int32 (size b)) Hrun).
Qed.

(** The loop of [get_twoD_board] over [m] rows that fit, after [k] rows. *)
Lemma get_twoD_board_loop (b : B) (extra m : nat) :
  forall k,
    (forall r, (k <= r < k + m)%nat ->
               length (slice (board b) (row_start b (r + 1)%nat) (size b))
               = size b) ->
    py_for (seq k m)
           (fun row board2d =>
              assign_row board2d row (size b)
                         (slice (board b) (row_start b (row + 1)%nat) (size b)))
           (map (fun r =>
                   map to_int32
                       (slice (board b) (row_start b (r + 1)%nat)
                              (size b)))
                (seq 0 k)
            ++ repeat (repeat 0 (size b)) (m + extra))
    = Ret (map (fun r =>
                   map to_int32
                       (slice (board b) (row_start b (r + 1)%nat)
                              (size b)))
                (seq 0 (k + m))
           ++ repeat (repeat 0 (size b)) extra).
Proof.
  induction m as [| m IH]; intros k Hfit.
  - cbn [seq py_for Nat.add]. rewrite Nat.add_0_r. reflexivity.
  - cbn [seq py_for repeat Nat.add].
    rewrite assign_row_fits by (apply Hfit; lia).
    cbv beta iota delta [mbind py_bind].
    rewrite insert_app_r_alt by (rewrite length_map, length_seq; lia).
    rewrite length_map, length_seq, Nat.sub_diag. cbn [insert list_insert].
    rewrite (cons_middle _ (map _ (seq 0 k))), app_assoc.
    change [map to_int32 (slice (board b) (row_start b (k + 1)) (size b))]
      with (map (fun r =>
              map to_int32
                  (slice (board b) (row_start b (r + 1)%nat)
                         (size b)))
           [(0 + k)%nat]).
    rewrite <- map_app, <- seq_S.
    rewrite IH by (intros r Hr; apply Hfit; lia).
    replace (k + S m)%nat with (S k + m)%nat by lia. reflexivity.
Qed.

Lemma slice_fits (l : list Z) (start n : nat) :
  (start + n <= length l)%nat -> length (slice l start n) = n.
Proof.
  intros Hfit. unfold slice. rewrite length_firstn, length_skipn. lia.
Qed.

(** X8. [get_twoD_board] copies the rows of the flat array into an
    [np.int32] array.  Whenever it returns, its result has size rows of size
    cells and every cell is a 32-bit value, at least -2^31 and below 2^31.
    When the flat array reaches the end of every row, that is
    row_start(r + 1) + size <= len(board) for each r < size, it returns, and
    row r of the result is the slice board[row_start(r + 1) :
    row_start(r + 1) + size] with every value cast to 32 bits; when moreover
    every value of the flat array is a 32-bit value, row r is that slice
    itself.  For size 0 the result is the empty board.  The cast leaves a
    32-bit value as it is and changes any other by a multiple of 2^32. *)
Theorem get_twoD_board_rows (b : B) :
  (forall twoD_board,
      get_twoD_board b = Ret twoD_board ->
      board_shape (size b) twoD_board /\
      Forall (Forall in_int32) twoD_board) /\
  ((forall r, (r < size b)%nat ->
              (row_start b (r + 1) + size b <= length (board b))%nat) ->
   get_twoD_board b
   = Ret (map (fun r =>
                 map to_int32
                     (slice (board b) (row_start b (r + 1)%nat) (size b)))
              (range (size b))) /\
   (Forall in_int32 (board b) ->
    get_twoD_board b
    = Ret (map (fun r => slice (board b) (row_start b (r + 1)%nat) (size b))
               (range (size b))))) /\
  (size b = 0%nat -> get_twoD_board b = Ret []) /\
  (forall z, in_int32 (to_int32 z) /\
             (to_int32 z - z) mod 2 ^ 32 = 0 /\
             (in_int32 z -> to_int32 z = z)).
Proof.
  assert (Hrows : (forall r, (r < size b)%nat ->
                     (row_start b (r + 1) + size b <= length (board b))%nat) ->
                  get_twoD_board b
                  = Ret (map (fun r =>
                                map to_int32
                                    (slice (board b) (row_start b (r + 1)%nat)
                                           (size b)))
                             (range (size b)))).
  { intros Hfit. unfold get_twoD_board, range. cbn zeta.
    pose proof (get_twoD_board_loop b 0 (size b) 0) as Hloop.
    cbn [seq map app repeat] in Hloop.
    rewrite Nat.add_0_l, Nat.add_0_r, app_nil_r in Hloop. apply Hloop.
    intros r Hr. apply slice_fits, Hfit. lia. }
  split; [| split; [| split]].
  - intros twoD_board Hrun.
    split; [apply get_twoD_board_shape | apply (get_twoD_board_int32 b)];
      exact Hrun.
  - intros Hfit. split; [apply Hrows, Hfit |].
    intros Hboard. rewrite (Hrows Hfit). f_equal.
    apply map_ext. intros r.
    apply map_to_int32_id, slice_int32, Hboard.
  - intros Hsize. unfold get_twoD_board, range. rewrite Hsize. reflexivity.
  - intros z. split; [apply to_int32_range |].
    split; [apply to_int32_congruent | apply to_int32_id].
Qed.

(** X9. When the slice of some row is neither of the row's length nor of
    length one, and the rows before it fit, [get_twoD_board] raises
    ValueError: a flat array that stops short of a row is not padded. *)
Theorem get_twoD_board_short_row (b : B) (r0 : nat) :
  (r0 < size b)%nat ->
  (forall r, (r < r0)%nat ->
             (row_start b (r + 1) + size b <= length (board b))%nat) ->
  length (slice (board b) (row_start b (r0 + 1)%nat) (size b)) <> size b ->
  length (slice (board b) (row_start b (r0 + 1)%nat) (size b)) <> 1%nat ->
  get_twoD_board b = Raise ValueError.
Proof.
  intros Hr0 Hfit Hn H1. unfold get_twoD_board, range. cbn zeta.
  assert (Hseq : seq 0 (size b)
                 = seq 0 r0 ++ r0 :: seq (S r0) (size b - r0 - 1)).
  { replace (size b) with (r0 + S (size b - r0 - 1))%nat at 1 by lia.
    rewrite seq_app. reflexivity. }
  rewrite Hseq, py_for_app.
  pose proof (get_twoD_board_loop b (S (size b - r0 - 1)) r0 0) as Hloop.
  cbn [seq map app] in Hloop.
  replace (r0 + S (size b - r0 - 1))%nat with (size b) in Hloop by lia.
  rewrite Hloop by (intros r Hr; apply slice_fits, Hfit; lia).
  cbn [seq py_for Nat.add].
  rewrite assign_row_short by assumption. reflexivity.
Qed.

End TwoDBoard.

(** ** The code of a position *)

Lemma py_index_lookup {A : Type} (l : list A) (i : nat) (x : A) :
  l !! i = Some x -> py_index l (Z.of_nat i) = Ret x.
Proof.
  intros Hx. pose proof (lookup_lt_Some _ _ _ Hx) as Hlt.
  unfold py_index.
  destruct (Z.ltb_spec (Z.of_nat i) 0); [lia |].
  destruct (Z.leb_spec 0 (Z.of_nat i)); [| lia].
  destruct (Z.ltb_spec (Z.of_nat i) (Z.of_nat (length l))); [| lia].
  cbn [andb]. rewrite Nat2Z.id.
  replace (nth_error l i) with (l !! i); [rewrite Hx; reflexivity |].
  clear. revert i. induction l as [| y l IH]; intros [| i]; try reflexivity.
  apply IH.
Qed.

Lemma xor_all_fold_left {A : Type} (g : A -> Z) (l : list A) (h : Z) :
  fold_left (fun h x => Z.lxor h (g x)) l h = Z.lxor h (xor_all (map g l)).
Proof.
  revert h. induction l as [| x l IH]; intros h.
  - cbn. rewrite Z.lxor_0_r. reflexivity.
  - cbn [fold_left map xor_all fold_right]. rewrite IH.
    rewrite Z.lxor_assoc. reflexivity.
Qed.

Lemma board_shape_cell (n : nat) (twoD_board : list (list Z)) (i j : nat) :
  board_shape n twoD_board -> (i < n)%nat -> (j < n)%nat ->
  exists row, twoD_board !! i = Some row /\
              row !! j = Some (cell twoD_board i j).
Proof.
  intros [Hlen Hrows] Hi Hj.
  destruct (lookup_lt_is_Some_2 twoD_board i ltac:(lia)) as [row Hrow].
  exists row. split; [exact Hrow |].
  pose proof (Forall_lookup_1 _ _ _ _ Hrows Hrow) as Hrowlen.
  cbv beta in Hrowlen.
  destruct (lookup_lt_is_Some_2 row j ltac:(lia)) as [c Hc].
  unfold cell. rewrite Hrow, Hc. reflexivity.
Qed.

Lemma zobrist_shape_cell (n : nat) (zob : list (list (list Z))) (i j : nat) :
  zobrist_shape n zob -> (i < n)%nat -> (j < n)%nat ->
  exists zi black white,
    zob !! i = Some zi /\ zi !! j = Some [black; white].
Proof.
  intros [Hlen Hrows] Hi Hj.
  destruct (lookup_lt_is_Some_2 zob i ltac:(lia)) as [zi Hzi].
  destruct (Forall_lookup_1 _ _ _ _ Hrows Hzi) as [Hzilen Hcells].
  destruct (lookup_lt_is_Some_2 zi j ltac:(lia)) as [zij Hzij].
  pose proof (Forall_lookup_1 _ _ _ _ Hcells Hzij) as Hzijlen.
  cbv beta in Hzijlen.
  destruct zij as [| black [| white [| extra zij]]]; try discriminate Hzijlen.
  exists zi, black, white. split; assumption.
Qed.

(** The number of a cell, read off a cell [[black; white]] of the table. *)
Lemma zobrist_number_colors (zob : list (list (list Z))) (i j : nat)
      (zi : list (list Z)) (black white c : Z) :
  zob !! i = Some zi -> zi !! j = Some [black; white] ->
  zobrist_number zob i j c
  = if c =? 0 then 0 else if c =? BLACK then black else white.
Proof.
  intros Hzi Hzij. unfold zobrist_number, index. rewrite Hzi, Hzij.
  destruct (c =? 0); [reflexivity |].
  destruct (c =? BLACK); [reflexivity |].
  destruct (c =? WHITE); reflexivity.
Qed.

Lemma getCode_cell_value (self : TranspositionTable)
      (twoD_board : list (list Z)) (n i j : nat) (hash : Z) :
  board_shape n twoD_board -> zobrist_shape n (zobrist self) ->
  (i < n)%nat -> (j < n)%nat ->
  getCode_cell self twoD_board i j hash
  = Ret (Z.lxor hash
                (zobrist_number (zobrist self) i j (cell twoD_board i j))).
Proof.
  intros Hboard Hzob Hi Hj.
  destruct (board_shape_cell _ _ _ _ Hboard Hi Hj) as (row & Hrow & Hc).
  destruct (zobrist_shape_cell _ _ _ _ Hzob Hi Hj)
    as (zi & black & white & Hzi & Hzij).
  rewrite (zobrist_number_colors _ _ _ _ _ _ _ Hzi Hzij).
  unfold getCode_cell.
  rewrite (py_index_lookup _ _ _ Hrow).
  cbv beta iota delta [mbind py_bind].
  rewrite (py_index_lookup _ _ _ Hc).
  cbv beta iota delta [mbind py_bind].
  destruct (cell twoD_board i j =? 0) eqn:Hzero; cbn [negb].
  { rewrite Z.lxor_0_r. reflexivity. }
  rewrite (py_index_lookup _ _ _ Hzi).
  cbv beta iota delta [mbind py_bind].
  rewrite (py_index_lookup _ _ _ Hzij).
  cbv beta iota delta [mbind py_bind].
  unfold index.
  destruct (cell twoD_board i j =? BLACK); [reflexivity |].
  destruct (cell twoD_board i j =? WHITE); reflexivity.
Qed.

Lemma getCode_loops_value (self : TranspositionTable)
      (twoD_board : list (list Z)) (n : nat) :
  board_shape n twoD_board -> zobrist_shape n (zobrist self) ->
  py_for (range n) (fun i hash =>
    py_for (range n) (fun j hash =>
      getCode_cell self twoD_board i j hash) hash) 0
  = Ret (board_code (zobrist self) n twoD_board).
Proof.
  intros Hboard Hzob.
  rewrite (py_for_Ret_fold _ _
             (fun hash i =>
                Z.lxor hash
                  (xor_all (map (fun j =>
                     zobrist_number (zobrist self) i j (cell twoD_board i j))
                                (range n))))).
  - rewrite xor_all_fold_left, Z.lxor_0_l. reflexivity.
  - intros i hash Hi. apply in_seq in Hi.
    rewrite (py_for_Ret_fold _ _
               (fun hash j =>
                  Z.lxor hash
                    (zobrist_number (zobrist self) i j (cell twoD_board i j)))).
    + rewrite xor_all_fold_left. reflexivity.
    + intros j hash' Hj. apply in_seq in Hj.
      apply (getCode_cell_value self twoD_board n); (assumption || lia).
Qed.

Lemma lxor_below (k a b : Z) :
  0 <= k -> 0 <= a < 2 ^ k -> 0 <= b < 2 ^ k -> 0 <= Z.lxor a b < 2 ^ k.
Proof.
  intros Hk Ha Hb.
  assert (Hnonneg : 0 <= Z.lxor a b) by (apply Z.lxor_nonneg; lia).
  split; [exact Hnonneg |].
  destruct (Z.eq_dec (Z.lxor a b) 0) as [-> | Hne]; [lia |].
  apply Z.log2_lt_pow2; [lia |].
  pose proof (Z.log2_lxor a b ltac:(lia) ltac:(lia)) as Hlog.
  assert (Hloga : Z.log2 a < k \/ a = 0).
  { destruct (Z.eq_dec a 0); [right; assumption | left].
    apply Z.log2_lt_pow2; lia. }
  assert (Hlogb : Z.log2 b < k \/ b = 0).
  { destruct (Z.eq_dec b 0); [right; assumption | left].
    apply Z.log2_lt_pow2; lia. }
  destruct Hloga as [Hloga | ->], Hlogb as [Hlogb | ->].
  - lia.
  - rewrite Z.lxor_0_r in *. lia.
  - rewrite Z.lxor_0_l in *. lia.
  - rewrite Z.lxor_0_l in Hne. contradiction.
Qed.

Lemma xor_all_below (k : Z) (l : list Z) :
  0 <= k -> Forall (fun x => 0 <= x < 2 ^ k) l -> 0 <= xor_all l < 2 ^ k.
Proof.
  intros Hk. induction 1 as [| x l Hx Hl IH].
  - cbn. pose proof (Z.pow_pos_nonneg 2 k ltac:(lia) Hk). lia.
  - cbn [xor_all fold_right]. apply lxor_below; assumption.
Qed.

Lemma xor_all_app (l1 l2 : list Z) :
  xor_all (l1 ++ l2) = Z.lxor (xor_all l1) (xor_all l2).
Proof.
  induction l1 as [| x l1 IH]; [cbn; rewrite Z.lxor_0_l; reflexivity |].
  cbn [app xor_all fold_right]. fold (xor_all (l1 ++ l2)). rewrite IH.
  fold (xor_all l1). rewrite Z.lxor_assoc. reflexivity.
Qed.

(** Changing one term of a xor over [0, m). *)
Lemma xor_all_map_change (g g' : nat -> Z) (m k : nat) :
  (k < m)%nat ->
  (forall x, x <> k -> g' x = g x) ->
  xor_all (map g' (seq 0 m))
  = Z.lxor (Z.lxor (xor_all (map g (seq 0 m))) (g k)) (g' k).
Proof.
  intros Hk Hsame.
  assert (Hseq : seq 0 m = seq 0 k ++ k :: seq (S k) (m - k - 1)).
  { replace m with (k + S (m - k - 1))%nat at 1 by lia.
    rewrite seq_app. reflexivity. }
  rewrite Hseq, !map_app, !xor_all_app. cbn [map xor_all fold_right].
  fold (xor_all (map g' (seq (S k) (m - k - 1)))).
  fold (xor_all (map g (seq (S k) (m - k - 1)))).
  rewrite (map_ext_in g' g (seq 0 k))
    by (intros x Hx; apply in_seq in Hx; apply Hsame; lia).
  rewrite (map_ext_in g' g (seq (S k) (m - k - 1)))
    by (intros x Hx; apply in_seq in Hx; apply Hsame; lia).
  solve_xor.
Qed.

Lemma cell_insert (twoD_board : list (list Z)) (n i j : nat)
      (row : list Z) (c : Z) (i' j' : nat) :
  board_shape n twoD_board -> (i < n)%nat -> (j < n)%nat ->
  twoD_board !! i = Some row ->
  cell (<[i := <[j := c]> row]> twoD_board) i' j'
  = if decide (i' = i /\ j' = j) then c else cell twoD_board i' j'.
Proof.
  intros [Hlen Hrows] Hi Hj Hrow.
  pose proof (Forall_lookup_1 _ _ _ _ Hrows Hrow) as Hrowlen.
  cbv beta in Hrowlen. unfold cell.
  destruct (decide (i' = i)) as [-> | Hne].
  - rewrite list_lookup_insert_eq by lia. rewrite Hrow.
    destruct (decide (j' = j)) as [-> | Hnej].
    + rewrite list_lookup_insert_eq by lia.
      destruct (decide (i = i /\ j = j)); [reflexivity | tauto].
    + rewrite list_lookup_insert_ne by congruence.
      destruct (decide (i = i /\ j' = j)); [tauto | reflexivity].
  - rewrite list_lookup_insert_ne by congruence.
    destruct (decide (i' = i /\ j' = j)); [tauto | reflexivity].
Qed.

Lemma board_code_insert (zob : list (list (list Z)))
      (twoD_board : list (list Z)) (n i j : nat) (row : list Z) (c : Z) :
  board_shape n twoD_board -> (i < n)%nat -> (j < n)%nat ->
  twoD_board !! i = Some row ->
  board_code zob n (<[i := <[j := c]> row]> twoD_board)
  = Z.lxor (Z.lxor (board_code zob n twoD_board)
                   (zobrist_number zob i j (cell twoD_board i j)))
           (zobrist_number zob i j c).
Proof.
  intros Hshape Hi Hj Hrow. unfold board_code, range.
  set (new := <[i := <[j := c]> row]> twoD_board).
  assert (Hcell : forall i' j',
             cell new i' j'
             = if decide (i' = i /\ j' = j) then c else cell twoD_board i' j')
    by (intros i' j'; apply (cell_insert _ n); assumption).
  assert (Hrowcode :
            xor_all (map (fun j' => zobrist_number zob i j' (cell new i j'))
                         (seq 0 n))
            = Z.lxor (Z.lxor
                        (xor_all (map (fun j' =>
                           zobrist_number zob i j' (cell twoD_board i j'))
                                      (seq 0 n)))
                        (zobrist_number zob i j (cell twoD_board i j)))
                     (zobrist_number zob i j c)).
  { rewrite (xor_all_map_change
               (fun j' => zobrist_number zob i j' (cell twoD_board i j'))
               (fun j' => zobrist_number zob i j' (cell new i j')) n j Hj).
    - cbv beta. rewrite Hcell.
      destruct (decide (i = i /\ j = j)); [reflexivity | tauto].
    - intros j' Hne. cbv beta. rewrite Hcell.
      destruct (decide (i = i /\ j' = j)); [tauto | reflexivity]. }
  rewrite (xor_all_map_change
             (fun i' => xor_all (map (fun j' =>
                zobrist_number zob i' j' (cell twoD_board i' j')) (seq 0 n)))
             (fun i' => xor_all (map (fun j' =>
                zobrist_number zob i' j' (cell new i' j')) (seq 0 n)))
             n i Hi).
  - cbv beta. rewrite Hrowcode. solve_xor.
  - intros i' Hne. cbv beta. f_equal. apply map_ext. intros j'.
    rewrite Hcell.
    destruct (decide (i' = i /\ j' = j)); [tauto | reflexivity].
Qed.

Lemma py_index_In {A : Type} (l : list A) (i : Z) (x : A) :
  py_index l i = Ret x -> In x l.
Proof.
  unfold py_index. intros Hx.
  destruct ((0 <=? (if i <? 0 then i + Z.of_nat (length l) else i))
            && ((if i <? 0 then i + Z.of_nat (length l) else i)
                <? Z.of_nat (length l))); [| discriminate Hx].
  destruct (nth_error l _) as [y |] eqn:Hnth; [| discriminate Hx].
  injection Hx as <-. exact (nth_error_In _ _ Hnth).
Qed.

Lemma zobrist_number_below (bound : Z) (zob : list (list (list Z)))
      (i j : nat) (c : Z) :
  0 < bound -> zobrist_below bound zob ->
  0 <= zobrist_number zob i j c < bound.
Proof.
  intros Hbound Hzob. unfold zobrist_number.
  destruct (c =? 0); [lia |].
  destruct (zob !! i) as [zi |] eqn:Hzi; [| lia].
  destruct (zi !! j) as [zij |] eqn:Hzij; [| lia].
  destruct (py_index zij (index c)) as [z | e] eqn:Hz; [| lia].
  pose proof (Forall_lookup_1 _ _ _ _ Hzob Hzi) as Hrow.
  pose proof (Forall_lookup_1 _ _ _ _ Hrow Hzij) as Hcell.
  apply (proj1 (List.Forall_forall _ _) Hcell z (py_index_In _ _ _ Hz)).
Qed.

Lemma board_code_below (k : Z) (zob : list (list (list Z))) (n : nat)
      (twoD_board : list (list Z)) :
  0 <= k -> zobrist_below (2 ^ k) zob ->
  0 <= board_code zob n twoD_board < 2 ^ k.
Proof.
  intros Hk Hzob.
  pose proof (Z.pow_pos_nonneg 2 k ltac:(lia) Hk) as Hpos.
  unfold board_code. apply xor_all_below; [exact Hk |].
  apply List.Forall_forall. intros x Hx. apply in_map_iff in Hx as (i & <- & _).
  apply xor_all_below; [exact Hk |].
  apply List.Forall_forall. intros y Hy. apply in_map_iff in Hy as (j & <- & _).
  apply zobrist_number_below; assumption.
Qed.

Lemma init_zobrist_shape (entropy : nat -> Z) (n : nat) :
  zobrist_shape n (init_zobrist entropy (Z.of_nat n)) /\
  zobrist_below (2 ^ 32) (init_zobrist entropy (Z.of_nat n)).
Proof.
  unfold zobrist_shape, zobrist_below, init_zobrist, range.
  rewrite Nat2Z.id. split; [split |].
  - rewrite length_map, length_seq. reflexivity.
  - apply List.Forall_map, List.Forall_forall. intros k _.
    split; [rewrite length_map, length_seq; reflexivity |].
    apply List.Forall_map, List.Forall_forall. intros j _. reflexivity.
  - apply List.Forall_map, List.Forall_forall. intros k _.
    apply List.Forall_map, List.Forall_forall. intros j _.
    apply List.Forall_map, List.Forall_forall. intros i _.
    pose proof (randint_closed_range
                  1 (2 ^ 32 - 1) (entropy ((k * n + j) * 2 + i)%nat)
                  ltac:(lia)).
    lia.
Qed.

Lemma py_for_raises {A S : Type} (items : list A) (body : A -> S -> py S)
      (e : exn) :
  (forall x s, (exists s', body x s = Ret s') \/ body x s = Raise e) ->
  (exists x, In x items /\ forall s, body x s = Raise e) ->
  forall s, py_for items body s = Raise e.
Proof.
  intros Hbody (x & Hin & Hraise).
  induction items as [| y items IH]; intros s; [contradiction |].
  cbn [py_for]. destruct Hin as [-> | Hin].
  - rewrite Hraise. reflexivity.
  - destruct (Hbody y s) as [[s' Hy] | Hy]; rewrite Hy;
      cbv beta iota delta [mbind py_bind]; [apply IH, Hin | reflexivity].
Qed.

Lemma py_for_outcome {A S : Type} (items : list A) (body : A -> S -> py S)
      (e : exn) :
  (forall x s, (exists s', body x s = Ret s') \/ body x s = Raise e) ->
  forall s, (exists s', py_for items body s = Ret s')
            \/ py_for items body s = Raise e.
Proof.
  intros Hbody. induction items as [| y items IH]; intros s.
  - left. eexists. reflexivity.
  - cbn [py_for]. destruct (Hbody y s) as [[s' Hy] | Hy]; rewrite Hy;
      cbv beta iota delta [mbind py_bind]; [apply IH | right; reflexivity].
Qed.

Lemma py_index_outcome {A : Type} (l : list A) (i : Z) :
  (exists x, py_index l i = Ret x) \/ py_index l i = Raise IndexError.
Proof.
  unfold py_index.
  destruct ((0 <=? (if i <? 0 then i + Z.of_nat (length l) else i))
            && ((if i <? 0 then i + Z.of_nat (length l) else i)
                <? Z.of_nat (length l))); [| right; reflexivity].
  destruct (nth_error l _); [left; eexists |right]; reflexivity.
Qed.

Lemma py_index_beyond {A : Type} (l : list A) (i : nat) :
  (length l <= i)%nat -> py_index l (Z.of_nat i) = Raise IndexError.
Proof.
  intros Hlen. unfold py_index.
  destruct (Z.ltb_spec (Z.of_nat i) 0); [lia |].
  destruct (Z.ltb_spec (Z.of_nat i) (Z.of_nat (length l))); [lia |].
  rewrite andb_false_r. reflexivity.
Qed.

Lemma getCode_cell_outcome (self : TranspositionTable)
      (twoD_board : list (list Z)) (i j : nat) (hash : Z) :
  (exists hash', getCode_cell self twoD_board i j hash = Ret hash')
  \/ getCode_cell self twoD_board i j hash = Raise IndexError.
Proof.
  unfold getCode_cell.
  destruct (py_index_outcome twoD_board (Z.of_nat i)) as [[row ->] | ->];
    cbv beta iota delta [mbind py_bind]; [| right; reflexivity].
  destruct (py_index_outcome row (Z.of_nat j)) as [[c ->] | ->];
    cbv beta iota delta [mbind py_bind]; [| right; reflexivity].
  destruct (negb (c =? 0)); [| left; eexists; reflexivity].
  destruct (py_index_outcome (zobrist self) (Z.of_nat i)) as [[zi ->] | ->];
    cbv beta iota delta [mbind py_bind]; [| right; reflexivity].
  destruct (py_index_outcome zi (Z.of_nat j)) as [[zij ->] | ->];
    cbv beta iota delta [mbind py_bind]; [| right; reflexivity].
  destruct (py_index_outcome zij (index c)) as [[z ->] | ->];
    cbv beta iota delta [mbind py_bind]; [left; eexists |right]; reflexivity.
Qed.

Lemma getCode_cell_empty (self : TranspositionTable)
      (twoD_board : list (list Z)) (n i j : nat) (hash : Z) :
  board_shape n twoD_board -> (i < n)%nat -> (j < n)%nat ->
  cell twoD_board i j = 0 ->
  getCode_cell self twoD_board i j hash = Ret hash.
Proof.
  intros Hboard Hi Hj Hzero.
  destruct (board_shape_cell _ _ _ _ Hboard Hi Hj) as (row & Hrow & Hc).
  unfold getCode_cell.
  rewrite (py_index_lookup _ _ _ Hrow).
  cbv beta iota delta [mbind py_bind].
  rewrite (py_index_lookup _ _ _ Hc).
  cbv beta iota delta [mbind py_bind].
  rewrite Hzero. reflexivity.
Qed.

(** A stone in a row or a column that the table does not have. *)
Lemma getCode_cell_outside (self : TranspositionTable)
      (twoD_board : list (list Z)) (n m i j : nat) (hash : Z) :
  board_shape n twoD_board -> zobrist_shape m (zobrist self) ->
  (i < n)%nat -> (j < n)%nat -> (m <= i \/ m <= j)%nat ->
  cell twoD_board i j <> 0 ->
  getCode_cell self twoD_board i j hash = Raise IndexError.
Proof.
  intros Hboard [Hlen Hrows] Hi Hj Hout Hstone.
  destruct (board_shape_cell _ _ _ _ Hboard Hi Hj) as (row & Hrow & Hc).
  unfold getCode_cell.
  rewrite (py_index_lookup _ _ _ Hrow).
  cbv beta iota delta [mbind py_bind].
  rewrite (py_index_lookup _ _ _ Hc).
  cbv beta iota delta [mbind py_bind].
  destruct (Z.eqb_spec (cell twoD_board i j) 0); [contradiction |].
  cbn [negb].
  destruct (le_lt_dec m i) as [Hmi | Hmi].
  - rewrite py_index_beyond by lia. reflexivity.
  - destruct (lookup_lt_is_Some_2 (zobrist self) i ltac:(lia)) as [zi Hzi].
    rewrite (py_index_lookup _ _ _ Hzi).
    cbv beta iota delta [mbind py_bind].
    destruct (Forall_lookup_1 _ _ _ _ Hrows Hzi) as [Hzilen _].
    rewrite py_index_beyond by lia. reflexivity.
Qed.

Lemma zobrist_number_as_hashed (n : nat) (zob : list (list (list Z)))
      (i j : nat) (c : Z) :
  zobrist_shape n zob -> (i < n)%nat -> (j < n)%nat ->
  zobrist_number zob i j (as_hashed c) = zobrist_number zob i j c.
Proof.
  intros Hzob Hi Hj.
  destruct (zobrist_shape_cell _ _ _ _ Hzob Hi Hj)
    as (zi & black & white & Hzi & Hzij).
  rewrite !(zobrist_number_colors _ _ _ _ _ _ _ Hzi Hzij).
  unfold as_hashed.
  destruct (Z.eqb_spec c 0); [reflexivity |].
  destruct (Z.eqb_spec c BLACK); reflexivity.
Qed.

Lemma lookup_map {A C : Type} (f : A -> C) (l : list A) (i : nat) :
  map f l !! i = option_map f (l !! i).
Proof.
  revert i. induction l as [| x l IH]; intros [| i]; try reflexivity.
  apply IH.
Qed.

Lemma cell_map (f : Z -> Z) (twoD_board : list (list Z)) (i j : nat) :
  f 0 = 0 ->
  cell (map (map f) twoD_board) i j = f (cell twoD_board i j).
Proof.
  intros Hf. unfold cell. rewrite lookup_map.
  destruct (twoD_board !! i) as [row |]; cbn [option_map];
    [| symmetry; exact Hf].
  rewrite lookup_map.
  destruct (row !! j); cbn [option_map default]; [reflexivity |].
  symmetry; exact Hf.
Qed.

Section CodeFacts.
Context {B : Type} `{GoBoard B}.

Lemma getCode_board_code (self : TranspositionTable) (b : B)
      (twoD_board : list (list Z)) :
  get_twoD_board b = Ret twoD_board ->
  zobrist_shape (size b) (zobrist self) ->
  getCode self b = Ret (board_code (zobrist self) (size b) twoD_board).
Proof.
  intros Htwo Hzob. unfold getCode. rewrite Htwo.
  cbv beta iota zeta delta [mbind py_bind].
  apply getCode_loops_value; [| exact Hzob].
  apply get_twoD_board_shape. exact Htwo.
Qed.

(** X10. With a table built by [__init__] for the size of the board, and
    after any stores, [getCode] does not raise on a board whose
    two-dimensional form can be read, and the code is the xor of the numbers
    of the cells, a natural number below 2^32. *)
Theorem getCode_on_own_table (b : B) (twoD_board : list (list Z))
        (entropy : nat -> Z) (entries : list (Z * Z)) :
  get_twoD_board b = Ret twoD_board ->
  let self :=
    store_all (TranspositionTable_init entropy (Z.of_nat (size b))) entries in
  getCode self b = Ret (board_code (zobrist self) (size b) twoD_board) /\
  0 <= board_code (zobrist self) (size b) twoD_board < 2 ^ 32.
Proof.
  intros Htwo. cbn zeta.
  assert (Hzob : zobrist (store_all (TranspositionTable_init
                                       entropy (Z.of_nat (size b))) entries)
                 = init_zobrist entropy (Z.of_nat (size b))).
  { rewrite lookup_store_all_zobrist. reflexivity. }
  rewrite Hzob.
  destruct (init_zobrist_shape entropy (size b)) as [Hshape Hbelow].
  split.
  - rewrite <- Hzob. apply getCode_board_code; [exact Htwo |].
    rewrite Hzob. exact Hshape.
  - apply board_code_below; [lia | exact Hbelow].
Qed.

(** X11. On a board with no stone the code is 0 whatever the table is,
    one built for another size or an empty one included: the table is not
    read for an empty cell. *)
Theorem getCode_empty_board (self : TranspositionTable) (b : B)
        (twoD_board : list (list Z)) :
  get_twoD_board b = Ret twoD_board ->
  (forall i j, cell twoD_board i j = 0) ->
  getCode self b = Ret 0.
Proof.
  intros Htwo Hempty. unfold getCode. rewrite Htwo.
  cbv beta iota zeta delta [mbind py_bind].
  pose proof (get_twoD_board_shape _ _ Htwo) as Hshape.
  rewrite (py_for_Ret_fold _ _ (fun hash _ => hash)).
  - clear. induction (range (size b)); [reflexivity | assumption].
  - intros i hash Hi. apply in_seq in Hi.
    rewrite (py_for_Ret_fold _ _ (fun hash _ => hash)).
    + clear. induction (range (size b)); [reflexivity | assumption].
    + intros j hash' Hj. apply in_seq in Hj.
      apply (getCode_cell_empty self twoD_board (size b));
        (assumption || lia || apply Hempty).
Qed.

(** X12. When two boards of one size differ in the cell (i, j) only, their
    codes differ by the numbers of the old and the new content of that cell.
    Putting a stone on an empty cell xors its number into the code, and
    taking it off again gives the code back. *)
Theorem getCode_one_cell_changed (self : TranspositionTable) (b b' : B)
        (twoD_board : list (list Z)) (i j : nat) (row : list Z) (c : Z) :
  get_twoD_board b = Ret twoD_board ->
  size b' = size b ->
  twoD_board !! i = Some row -> (j < size b)%nat ->
  get_twoD_board b' = Ret (<[i := <[j := c]> row]> twoD_board) ->
  zobrist_shape (size b) (zobrist self) ->
  exists h h',
    getCode self b = Ret h /\ getCode self b' = Ret h' /\
    h' = Z.lxor (Z.lxor h (zobrist_number (zobrist self) i j
                                          (cell twoD_board i j)))
                (zobrist_number (zobrist self) i j c) /\
    (cell twoD_board i j = 0 ->
     h' = Z.lxor h (zobrist_number (zobrist self) i j c) /\
     h = Z.lxor h' (zobrist_number (zobrist self) i j c)).
Proof.
  intros Htwo Hsize Hrow Hj Htwo' Hzob.
  pose proof (get_twoD_board_shape _ _ Htwo) as Hshape.
  assert (Hi : (i < size b)%nat).
  { destruct Hshape as [Hlen _]. rewrite <- Hlen.
    apply (lookup_lt_Some _ _ _ Hrow). }
  eexists _, _.
  split; [apply getCode_board_code; eassumption |].
  split.
  { apply getCode_board_code; [eassumption | rewrite Hsize; exact Hzob]. }
  rewrite Hsize.
  rewrite (board_code_insert _ _ _ _ _ _ _ Hshape Hi Hj Hrow).
  split; [reflexivity |].
  intros Hold. rewrite Hold.
  replace (zobrist_number (zobrist self) i j 0) with 0 by reflexivity.
  rewrite Z.lxor_0_r. split; [reflexivity | solve_xor].
Qed.

(** X13. [getCode] tells three kinds of cell apart: empty, black and any
    other value.  A board on which every non-empty cell that is not black is
    replaced by WHITE has the same code: BORDER, or any stray value, is
    hashed as a white stone. *)
Theorem getCode_other_values_as_white (self : TranspositionTable) (b b' : B)
        (twoD_board : list (list Z)) :
  get_twoD_board b = Ret twoD_board ->
  size b' = size b ->
  get_twoD_board b' = Ret (map (map as_hashed) twoD_board) ->
  zobrist_shape (size b) (zobrist self) ->
  exists h, getCode self b = Ret h /\ getCode self b' = Ret h.
Proof.
  intros Htwo Hsize Htwo' Hzob.
  eexists. split; [apply getCode_board_code; eassumption |].
  rewrite (getCode_board_code _ _ _ Htwo')
    by (rewrite Hsize; exact Hzob).
  rewrite Hsize. f_equal. unfold board_code. f_equal.
  apply map_ext_in. intros i Hi. apply in_seq in Hi. f_equal.
  apply map_ext_in. intros j Hj. apply in_seq in Hj.
  rewrite cell_map by reflexivity.
  apply (zobrist_number_as_hashed (size b)); (assumption || lia).
Qed.

(** X14. With a table built for a smaller size than the board, [getCode]
    raises IndexError as soon as the board has a stone in a row or a column
    that the table does not have. *)
Theorem getCode_table_too_small (self : TranspositionTable) (b : B)
        (twoD_board : list (list Z)) (m i j : nat) :
  get_twoD_board b = Ret twoD_board ->
  zobrist_shape m (zobrist self) ->
  (i < size b)%nat -> (j < size b)%nat -> (m <= i \/ m <= j)%nat ->
  cell twoD_board i j <> 0 ->
  getCode self b = Raise IndexError.
Proof.
  intros Htwo Hzob Hi Hj Hout Hstone. unfold getCode. rewrite Htwo.
  cbv beta iota zeta delta [mbind py_bind].
  pose proof (get_twoD_board_shape _ _ Htwo) as Hshape.
  apply py_for_raises.
  - intros i' hash. apply py_for_outcome.
    intros j' hash'. apply getCode_cell_outcome.
  - exists i. split; [apply in_seq; lia |].
    apply py_for_raises.
    + intros j' hash'. apply getCode_cell_outcome.
    + exists j. split; [apply in_seq; lia |].
      intros hash. apply (getCode_cell_outside self twoD_board (size b) m);
        assumption.
Qed.

End CodeFacts.

(** ** Move generation *)

Section MoveGeneration.
Context {B : Type} `{GoBoard B}.

(** X15. [generate_legal_moves] returns exactly the empty points that the
    board reports legal for the colour, in the order and with the
    multiplicity in which the board lists its empty points. *)
Theorem generate_legal_moves_sound_complete (b : B) (color : Z) :
  (forall move,
      In move (generate_legal_moves b color) <->
      In move (get_empty_points b) /\ is_legal b move color = true) /\
  sublist (generate_legal_moves b color) (get_empty_points b) /\
  (List.NoDup (get_empty_points b) ->
   List.NoDup (generate_legal_moves b color)).
Proof.
  unfold generate_legal_moves. cbn zeta. split; [| split].
  - intros move. apply (filter_In (fun m => is_legal b m color)).
  - induction (get_empty_points b) as [| p points IH]; [constructor |].
    cbn [List.filter]. destruct (is_legal b p color).
    + apply sublist_skip, IH.
    + apply sublist_cons, IH.
  - apply List.NoDup_filter.
Qed.

Variable is_eye : B -> Z -> Z -> bool.
Variable shuffle : list Z -> list Z.

(** [np.random.shuffle] reorders the array and nothing else. *)
Hypothesis shuffle_permutes : forall l, Permutation (shuffle l) l.

(** X16. [generate_random_move] returns PASS exactly when no empty point
    is legal for the colour and, with the eye filter on, not an eye; in
    particular whenever [generate_legal_moves] is empty. *)
Theorem generate_random_move_pass (b : B) (color : Z) (use_eye_filter : bool) :
  (generate_random_move is_eye shuffle b color use_eye_filter = PASS <->
   forall move,
     In move (get_empty_points b) ->
     is_legal b move color = false \/
     (use_eye_filter = true /\ is_eye b move color = true)) /\
  (generate_legal_moves b color = [] ->
   generate_random_move is_eye shuffle b color use_eye_filter = PASS).
Proof.
  assert (Hiff : generate_random_move is_eye shuffle b color use_eye_filter
                 = PASS <->
                 forall move,
                   In move (get_empty_points b) ->
                   is_legal b move color = false \/
                   (use_eye_filter = true /\ is_eye b move color = true)).
  { unfold generate_random_move, PASS. cbn zeta. split.
    - intros Hnone move Hin.
      apply (Permutation_in _ (Permutation_sym (shuffle_permutes _))) in Hin.
      pose proof (find_none _ _ Hnone move Hin) as Hfalse. cbv beta in Hfalse.
      destruct (is_legal b move color); [right | left; reflexivity].
      destruct use_eye_filter, (is_eye b move color);
        cbn in Hfalse; try discriminate Hfalse. split; reflexivity.
    - intros Hall.
      destruct (List.find _ (shuffle (get_empty_points b)))
        as [move |] eqn:Hfind; [| reflexivity].
      apply find_some in Hfind as [Hin Htrue].
      apply (Permutation_in _ (shuffle_permutes _)) in Hin.
      destruct (Hall move Hin) as [Hlegal | [-> Heye]].
      + rewrite Hlegal, andb_false_r in Htrue. discriminate Htrue.
      + rewrite Heye in Htrue. discriminate Htrue. }
  split; [exact Hiff |].
  intros Hnone. apply Hiff. intros move Hin. left.
  destruct (is_legal b move color) eqn:Hlegal; [| reflexivity].
  assert (Hmem : In move (generate_legal_moves b color)).
  { unfold generate_legal_moves.
    apply (filter_In (fun m => is_legal b m color)). split; assumption. }
  rewrite Hnone in Hmem. contradiction.
Qed.

(** X17. A move returned by [generate_random_move] is an empty point of
    the board, legal for the colour, one of [generate_legal_moves], and not
    an eye when the eye filter is on.  When exactly one empty point
    qualifies, that point is returned whatever the shuffle. *)
Theorem generate_random_move_sound (b : B) (color : Z) (use_eye_filter : bool) :
  (forall move,
      generate_random_move is_eye shuffle b color use_eye_filter = Some move ->
      In move (get_empty_points b) /\
      is_legal b move color = true /\
      In move (generate_legal_moves b color) /\
      (use_eye_filter = true -> is_eye b move color = false)) /\
  (forall only,
      In only (get_empty_points b) ->
      is_legal b only color = true ->
      (use_eye_filter = true -> is_eye b only color = false) ->
      (forall move,
          In move (get_empty_points b) ->
          is_legal b move color = true ->
          (use_eye_filter = true -> is_eye b move color = false) ->
          move = only) ->
      generate_random_move is_eye shuffle b color use_eye_filter = Some only).
Proof.
  assert (Hsound : forall move,
             generate_random_move is_eye shuffle b color use_eye_filter
             = Some move ->
             In move (get_empty_points b) /\
             is_legal b move color = true /\
             In move (generate_legal_moves b color) /\
             (use_eye_filter = true -> is_eye b move color = false)).
  { intros move Hfind. unfold generate_random_move in Hfind. cbn zeta in Hfind.
    apply find_some in Hfind as [Hin Htrue].
    apply (Permutation_in _ (shuffle_permutes _)) in Hin.
    apply andb_prop in Htrue as [Hfilter Hlegal].
    split; [exact Hin |]. split; [exact Hlegal |]. split.
    - unfold generate_legal_moves.
      apply (filter_In (fun m => is_legal b m color)). split; assumption.
    - intros ->. cbn in Hfilter.
      destruct (is_eye b move color); [discriminate Hfilter | reflexivity]. }
  split; [exact Hsound |].
  intros only Hin Hlegal Hnoeye Honly.
  destruct (generate_random_move is_eye shuffle b color use_eye_filter)
    as [move |] eqn:Hfind.
  - destruct (Hsound move eq_refl) as (Hin' & Hlegal' & _ & Hnoeye').
    f_equal. apply Honly; assumption.
  - unfold generate_random_move in Hfind. cbn zeta in Hfind.
    apply (Permutation_in _ (Permutation_sym (shuffle_permutes _))) in Hin.
    pose proof (find_none _ _ Hfind only Hin) as Hfalse. cbv beta in Hfalse.
    rewrite Hlegal, andb_true_r in Hfalse.
    destruct use_eye_filter; cbn in Hfalse; [| discriminate Hfalse].
    rewrite Hnoeye in Hfalse by reflexivity. discriminate Hfalse.
Qed.

End MoveGeneration.

(** X18. [opponent] swaps BLACK and WHITE, undoes itself on every integer,
    and returns a playing colour exactly for a playing colour: the opponent
    of EMPTY is BORDER and the opponent of BORDER is EMPTY. *)
Theorem opponent_swaps_colors (color : Z) :
  opponent BLACK = WHITE /\ opponent WHITE = BLACK /\
  opponent (opponent color) = color /\
  is_black_white (opponent color) = is_black_white color /\
  opponent EMPTY = BORDER /\ opponent BORDER = EMPTY.
Proof.
  unfold opponent, is_black_white, BLACK, WHITE, EMPTY, BORDER.
  repeat split; lia.
Qed.

(** ** The search: fallback, window and table *)

Lemma last_returned_app (events1 events2 : list event) :
  last_returned (events1 ++ events2)
  = match last_returned events2 with
    | Some r => Some r
    | None => last_returned events1
    end.
Proof.
  induction events1 as [| e events1 IH].
  - cbn [app last_returned]. destruct (last_returned events2); reflexivity.
  - destruct e; cbn [app last_returned]; rewrite ?IH;
      destruct (last_returned events2); reflexivity.
Qed.

Section SearchFacts.
Context {B : Type} `{GoBoard B}.

Lemma getCode_zobrist (t1 t2 : TranspositionTable) (p : B) :
  zobrist t1 = zobrist t2 -> getCode t1 p = getCode t2 p.
Proof.
  intros Hzob. unfold getCode, getCode_cell. rewrite Hzob. reflexivity.
Qed.

(** X19. In a position that is not decided, has no accepted entry and no
    legal move, [simulate] returns [alpha] as it was given, plays nothing
    and leaves the board object, table included, as it found it. *)
Theorem simulate_no_legal_moves
        fuel (b : board_obj B) color alpha beta code :
  getCode (tt b) (pos b) = Ret code ->
  truthy (lookup (tt b) code) = false ->
  evaluate_endgame (pos b) = EMPTY ->
  generate_legal_moves (pos b) color = [] ->
  simulate (S fuel) b color alpha beta
  = Done alpha b
         [GetCode code; Lookup code (lookup (tt b) code);
          EvaluateEndgame EMPTY; GenerateLegalMoves color []].
Proof.
  intros Hcode Hmiss Hopen Hnone.
  rewrite (simulate_expand _ _ _ _ _ _ Hcode Hmiss Hopen), Hnone.
  reflexivity.
Qed.

Lemma move_loop_window rec code color opp beta legal_moves :
  forall alpha (b : board_obj B) v b' events,
    alpha <= beta ->
    move_loop rec code color opp alpha beta legal_moves b = Done v b' events ->
    alpha <= v <= beta.
Proof.
  induction legal_moves as [| move rest IH];
    intros alpha b v b' events Hwindow Hrun.
  - cbn [move_loop] in Hrun. injection Hrun as <- <- <-. lia.
  - cbn [move_loop] in Hrun.
    destruct (rec {| pos := play_move (pos b) move color; tt := tt b |}
                  opp (- beta) (- alpha))
      as [r b2 inner | e |]; [| discriminate Hrun ..].
    destruct (Z.geb_spec (- r) beta) as [Hcut | Hcut].
    + injection Hrun as <- <- <-. lia.
    + match type of Hrun with
      | match ?loop with _ => _ end = _ =>
          destruct loop as [v5 b5 events5 | e |] eqn:Hloop;
          [| discriminate Hrun ..]
      end.
      injection Hrun as <- <- <-.
      apply IH in Hloop.
      * destruct ((- r >? alpha) && (- r >? 0)) eqn:Hraise; [| exact Hloop].
        apply andb_prop in Hraise as [Hgt _]. lia.
      * destruct ((- r >? alpha) && (- r >? 0)); lia.
Qed.

(** X20. A call that reaches the move loop with alpha <= beta returns a
    value between alpha and beta, both included, however its recursive calls
    answer. *)
Theorem simulate_within_window
        fuel (b : board_obj B) color alpha beta code v b' events :
  getCode (tt b) (pos b) = Ret code ->
  truthy (lookup (tt b) code) = false ->
  evaluate_endgame (pos b) = EMPTY ->
  alpha <= beta ->
  simulate (S fuel) b color alpha beta = Done v b' events ->
  alpha <= v <= beta.
Proof.
  intros Hcode Hmiss Hopen Hwindow Hrun.
  rewrite (simulate_expand _ _ _ _ _ _ Hcode Hmiss Hopen) in Hrun.
  destruct (move_loop (simulate fuel) code color (opponent color) alpha beta
                      (generate_legal_moves (pos b) color) b)
    as [v' b'' loop_events | e |] eqn:Hloop; [| discriminate Hrun ..].
  injection Hrun as <- <- <-.
  apply (move_loop_window _ _ _ _ _ _ _ _ _ _ _ Hwindow Hloop).
Qed.

Lemma keeps_entries_store (b : board_obj B) (p : B) (code value : Z) :
  keeps_entries b {| pos := p; tt := snd (store (tt b) code value) |}.
Proof.
  intros c Hc. unfold lookup, store in *. cbn [tt snd table].
  destruct (Z.eq_dec code c) as [-> | Hne].
  - rewrite lookup_insert_eq. eexists. reflexivity.
  - rewrite lookup_insert_ne by exact Hne. exact Hc.
Qed.

Lemma keeps_entries_trans (b1 b2 b3 : board_obj B) :
  keeps_entries b1 b2 -> keeps_entries b2 b3 -> keeps_entries b1 b3.
Proof. intros H12 H23 c Hc. apply H23, H12, Hc. Qed.

Lemma move_loop_keeps_entries rec code color opp beta :
  (forall b c a bt v b' events,
      rec b c a bt = Done v b' events -> keeps_entries b b') ->
  forall legal_moves alpha b v b' events,
    move_loop rec code color opp alpha beta legal_moves b = Done v b' events ->
    keeps_entries b b'.
Proof.
  intros Hrec.
  induction legal_moves as [| move rest IH]; intros alpha b v b' events Hrun.
  - cbn [move_loop] in Hrun. injection Hrun as <- <- <-. intros c Hc. exact Hc.
  - cbn [move_loop] in Hrun.
    destruct (rec {| pos := play_move (pos b) move color; tt := tt b |}
                  opp (- beta) (- alpha))
      as [r b2 inner | e |] eqn:Hcall; [| discriminate Hrun ..].
    pose proof (Hrec _ _ _ _ _ _ _ Hcall) as Hkeep2.
    assert (Hkeep4 : keeps_entries b
              {| pos := undoLastMove (pos b2);
                 tt := snd (store (tt b2) code (- r)) |}).
    { intros c Hc. apply (keeps_entries_store b2), Hkeep2, Hc. }
    cbn [pos tt] in Hrun.
    destruct (- r >=? beta).
    + injection Hrun as <- <- <-. exact Hkeep4.
    + match type of Hrun with
      | match ?loop with _ => _ end = _ =>
          destruct loop as [v5 b5 events5 | e |] eqn:Hloop;
          [| discriminate Hrun ..]
      end.
      injection Hrun as <- <- <-.
      exact (keeps_entries_trans _ _ _ Hkeep4 (IH _ _ _ _ _ Hloop)).
Qed.

Lemma simulate_keeps_entries fuel :
  forall (b : board_obj B) color alpha beta v b' events,
    simulate fuel b color alpha beta = Done v b' events ->
    keeps_entries b b'.
Proof.
  induction fuel as [| fuel IH]; intros b color alpha beta v b' events Hrun.
  - discriminate Hrun.
  - cbn [simulate] in Hrun.
    destruct (getCode (tt b) (pos b)) as [code | e]; [| discriminate Hrun].
    destruct (truthy (lookup (tt b) code)).
    { injection Hrun as <- <- <-. intros c Hc. exact Hc. }
    destruct (negb (evaluate_endgame (pos b) =? EMPTY)).
    { injection Hrun as <- <- <-. apply keeps_entries_store. }
    match type of Hrun with
    | match ?loop with _ => _ end = _ =>
        destruct loop as [v' b'' loop_events | e |] eqn:Hloop;
        [| discriminate Hrun ..]
    end.
    injection Hrun as <- <- <-.
    apply (move_loop_keeps_entries _ _ _ _ _ IH _ _ _ _ _ _ Hloop).
Qed.

Lemma move_loop_zobrist rec code color opp beta :
  (forall b c a bt v b' events,
      rec b c a bt = Done v b' events -> zobrist (tt b') = zobrist (tt b)) ->
  forall legal_moves alpha b v b' events,
    move_loop rec code color opp alpha beta legal_moves b = Done v b' events ->
    zobrist (tt b') = zobrist (tt b).
Proof.
  intros Hrec.
  induction legal_moves as [| move rest IH]; intros alpha b v b' events Hrun.
  - cbn [move_loop] in Hrun. injection Hrun as <- <- <-. reflexivity.
  - cbn [move_loop] in Hrun.
    destruct (rec {| pos := play_move (pos b) move color; tt := tt b |}
                  opp (- beta) (- alpha))
      as [r b2 inner | e |] eqn:Hcall; [| discriminate Hrun ..].
    pose proof (Hrec _ _ _ _ _ _ _ Hcall) as Hzob2. cbn [tt] in Hzob2.
    cbn [pos tt] in Hrun.
    destruct (- r >=? beta).
    + injection Hrun as <- <- <-. exact Hzob2.
    + match type of Hrun with
      | match ?loop with _ => _ end = _ =>
          destruct loop as [v5 b5 events5 | e |] eqn:Hloop;
          [| discriminate Hrun ..]
      end.
      injection Hrun as <- <- <-.
      rewrite (IH _ _ _ _ _ Hloop). exact Hzob2.
Qed.

Lemma simulate_zobrist fuel :
  forall (b : board_obj B) color alpha beta v b' events,
    simulate fuel b color alpha beta = Done v b' events ->
    zobrist (tt b') = zobrist (tt b).
Proof.
  induction fuel as [| fuel IH]; intros b color alpha beta v b' events Hrun.
  - discriminate Hrun.
  - cbn [simulate] in Hrun.
    destruct (getCode (tt b) (pos b)) as [code | e]; [| discriminate Hrun].
    destruct (truthy (lookup (tt b) code)).
    { injection Hrun as <- <- <-. reflexivity. }
    destruct (negb (evaluate_endgame (pos b) =? EMPTY)).
    { injection Hrun as <- <- <-. reflexivity. }
    match type of Hrun with
    | match ?loop with _ => _ end = _ =>
        destruct loop as [v' b'' loop_events | e |] eqn:Hloop;
        [| discriminate Hrun ..]
    end.
    injection Hrun as <- <- <-.
    apply (move_loop_zobrist _ _ _ _ _ IH _ _ _ _ _ _ Hloop).
Qed.

(** X21. The table only grows during a search: every code that had an
    entry before a call of [simulate] has one after it (its value may have
    been overwritten), and the Zobrist numbers are not changed. *)
Theorem simulate_table_grows
        fuel (b : board_obj B) color alpha beta v b' events :
  simulate fuel b color alpha beta = Done v b' events ->
  keeps_entries b b' /\ zobrist (tt b') = zobrist (tt b).
Proof.
  intros Hrun. split.
  - apply (simulate_keeps_entries _ _ _ _ _ _ _ _ Hrun).
  - apply (simulate_zobrist _ _ _ _ _ _ _ _ Hrun).
Qed.

Lemma move_loop_last_store rec code color opp beta legal_moves :
  forall alpha (b : board_obj B) v b' events,
    move_loop rec code color opp alpha beta legal_moves b = Done v b' events ->
    match last_returned events with
    | Some r => lookup (tt b') code = Some (- r)
    | None => b' = b
    end.
Proof.
  induction legal_moves as [| move rest IH]; intros alpha b v b' events Hrun.
  - cbn [move_loop] in Hrun. injection Hrun as <- <- <-. reflexivity.
  - cbn [move_loop] in Hrun.
    destruct (rec {| pos := play_move (pos b) move color; tt := tt b |}
                  opp (- beta) (- alpha))
      as [r b2 inner | e |] eqn:Hcall; [| discriminate Hrun ..].
    cbn [pos tt] in Hrun.
    destruct (- r >=? beta).
    + injection Hrun as <- <- <-. cbn [last_returned tt].
      unfold lookup, store. cbn [snd table]. apply lookup_insert_eq.
    + match type of Hrun with
      | match ?loop with _ => _ end = _ =>
          destruct loop as [v5 b5 events5 | e |] eqn:Hloop;
          [| discriminate Hrun ..]
      end.
      injection Hrun as <- <- <-.
      cbn [app last_returned].
      pose proof (IH _ _ _ _ _ Hloop) as Hlast.
      destruct (last_returned events5) as [r5 |]; [exact Hlast |].
      rewrite Hlast. cbn [tt].
      unfold lookup, store. cbn [snd table]. apply lookup_insert_eq.
Qed.

Lemma simulate_entry_is_last_child_aux
      fuel (b : board_obj B) color alpha beta code v b' events :
  getCode (tt b) (pos b) = Ret code ->
  truthy (lookup (tt b) code) = false ->
  evaluate_endgame (pos b) = EMPTY ->
  simulate (S fuel) b color alpha beta = Done v b' events ->
  match last_returned events with
  | Some r => lookup (tt b') code = Some (- r)
  | None => b' = b
  end.
Proof.
  intros Hcode Hmiss Hopen Hrun.
  rewrite (simulate_expand _ _ _ _ _ _ Hcode Hmiss Hopen) in Hrun.
  destruct (move_loop (simulate fuel) code color (opponent color) alpha beta
                      (generate_legal_moves (pos b) color) b)
    as [v' b'' loop_events | e |] eqn:Hloop; [| discriminate Hrun ..].
  injection Hrun as <- <- <-.
  cbn [app last_returned].
  exact (move_loop_last_store _ _ _ _ _ _ _ _ _ _ _ Hloop).
Qed.

(** X22. After a call that reaches the move loop and examines at least
    one move, the entry under the code of the position is the negated value
    of the last recursive call, whatever the call returns: [beta] after a
    cutoff, or the best value of all the moves.  With no move examined the
    board object is left as it was. *)
Theorem simulate_entry_is_last_child
        fuel (b : board_obj B) color alpha beta code v b' events :
  getCode (tt b) (pos b) = Ret code ->
  truthy (lookup (tt b) code) = false ->
  evaluate_endgame (pos b) = EMPTY ->
  simulate (S fuel) b color alpha beta = Done v b' events ->
  match last_returned events with
  | Some r => lookup (tt b') code = Some (- r)
  | None => b' = b
  end.
Proof. apply simulate_entry_is_last_child_aux. Qed.

Section SecondCall.

Hypothesis undo_play :
  forall (p : B) (move color : Z),
    undoLastMove (play_move p move color) = p.

(** X24. When [undoLastMove] takes back the last [play_move], a call that
    reached the move loop and examined a move leaves the position with an
    entry that the next call on it returns at once, provided it is not
    zero: the negated value of the last recursive call, for any colour and
    any window, and not the value the first call returned. *)
Theorem simulate_again_returns_last_child
        fuel (b : board_obj B) color alpha beta code v b' events r :
  getCode (tt b) (pos b) = Ret code ->
  truthy (lookup (tt b) code) = false ->
  evaluate_endgame (pos b) = EMPTY ->
  simulate (S fuel) b color alpha beta = Done v b' events ->
  last_returned events = Some r ->
  r <> 0 ->
  forall fuel' color' alpha' beta',
    simulate (S fuel') b' color' alpha' beta'
    = Done (- r) b' [GetCode code; Lookup code (Some (- r))].
Proof.
  intros Hcode Hmiss Hopen Hrun Hlast Hr fuel' color' alpha' beta'.
  pose proof (simulate_entry_is_last_child_aux
                _ _ _ _ _ _ _ _ _ Hcode Hmiss Hopen Hrun) as Hentry.
  rewrite Hlast in Hentry.
  destruct (simulate_restores undo_play _ _ _ _ _ _ _ _ Hrun)
    as (Hpos & _ & Hzob).
  apply simulate_hit; [| exact Hentry | lia].
  rewrite Hpos, (getCode_zobrist _ _ _ Hzob). exact Hcode.
Qed.

End SecondCall.

End SearchFacts.

(** ** The table along the trace of a search *)

Lemma same_found_refl (x : option Z) : same_found x x = true.
Proof. destruct x as [v |]; [apply Z.eqb_refl | reflexivity]. Qed.

Lemma replay_event_Simulate color alpha beta inner r d :
  replay_event (Simulate color alpha beta inner r) d = replay_trace inner d.
Proof.
  cbn [replay_event]. revert d.
  induction inner as [| e inner IH]; intros d; [reflexivity |].
  cbn [replay_trace]. destruct (replay_event e d); [apply IH | reflexivity].
Qed.

Lemma replay_trace_app events1 events2 d :
  replay_trace (events1 ++ events2) d
  = match replay_trace events1 d with
    | Some d' => replay_trace events2 d'
    | None => None
    end.
Proof.
  revert d. induction events1 as [| e events1 IH]; intros d.
  - reflexivity.
  - cbn [app replay_trace].
    destruct (replay_event e d); [apply IH | reflexivity].
Qed.

Lemma replay_round move color c alpha beta inner r code value d d' :
  replay_trace inner d = Some d' ->
  replay_trace [PlayMove move color; Simulate c alpha beta inner r;
                Store code value; UndoLastMove] d
  = Some (<[code := value]> d').
Proof.
  intros Hinner. cbn [replay_trace].
  change (replay_event (PlayMove move color) d) with (Some d).
  cbv iota beta. rewrite replay_event_Simulate, Hinner. reflexivity.
Qed.

Section ParentCodeFacts.
Context {B : Type} `{GoBoard B}.

Lemma move_loop_replay rec code color opp beta :
  (forall b c a bt v b' events,
      rec b c a bt = Done v b' events ->
      replay_trace events (table (tt b)) = Some (table (tt b'))) ->
  forall legal_moves alpha (b : board_obj B) v b' events,
    move_loop rec code color opp alpha beta legal_moves b = Done v b' events ->
    replay_trace events (table (tt b)) = Some (table (tt b')).
Proof.
  intros Hrec.
  induction legal_moves as [| move rest IH]; intros alpha b v b' events Hrun.
  - cbn [move_loop] in Hrun. injection Hrun as <- <- <-. reflexivity.
  - cbn [move_loop] in Hrun.
    destruct (rec {| pos := play_move (pos b) move color; tt := tt b |}
                  opp (- beta) (- alpha))
      as [r b2 inner | e |] eqn:Hcall; [| discriminate Hrun ..].
    pose proof (Hrec _ _ _ _ _ _ _ Hcall) as Hinner. cbn [tt] in Hinner.
    pose proof (replay_round move color opp (- beta) (- alpha) inner r
                             code (- r) _ _ Hinner) as Hround.
    cbn [pos tt] in Hrun.
    destruct (- r >=? beta).
    + injection Hrun as <- <- <-. exact Hround.
    + match type of Hrun with
      | match ?loop with _ => _ end = _ =>
          destruct loop as [v5 b5 events5 | e |] eqn:Hloop;
          [| discriminate Hrun ..]
      end.
      injection Hrun as <- <- <-.
      change (replay_trace
                ([PlayMove move color; Simulate opp (- beta) (- alpha) inner r;
                  Store code (- r); UndoLastMove] ++ events5)
                (table (tt b)) = Some (table (tt b5))).
      rewrite replay_trace_app, Hround.
      exact (IH _ _ _ _ _ Hloop).
Qed.

Lemma simulate_replay fuel :
  forall (b : board_obj B) color alpha beta v b' events,
    simulate fuel b color alpha beta = Done v b' events ->
    replay_trace events (table (tt b)) = Some (table (tt b')).
Proof.
  induction fuel as [| fuel IH]; intros b color alpha beta v b' events Hrun.
  - discriminate Hrun.
  - cbn [simulate] in Hrun.
    destruct (getCode (tt b) (pos b)) as [code | e]; [| discriminate Hrun].
    assert (Hlookup : replay_event (Lookup code (lookup (tt b) code))
                                   (table (tt b)) = Some (table (tt b))).
    { cbn [replay_event]. unfold lookup. rewrite same_found_refl.
      reflexivity. }
    destruct (truthy (lookup (tt b) code)).
    { injection Hrun as <- <- <-. cbn [replay_trace].
      change (replay_event (GetCode code) (table (tt b)))
        with (Some (table (tt b))).
      cbv iota beta. rewrite Hlookup. reflexivity. }
    destruct (negb (evaluate_endgame (pos b) =? EMPTY)).
    { injection Hrun as <- <- <-. cbn [replay_trace].
      change (replay_event (GetCode code) (table (tt b)))
        with (Some (table (tt b))).
      cbv iota beta. rewrite Hlookup. reflexivity. }
    match type of Hrun with
    | match ?loop with _ => _ end = _ =>
        destruct loop as [v' b'' loop_events | e |] eqn:Hloop;
        [| discriminate Hrun ..]
    end.
    injection Hrun as <- <- <-.
    cbn [app replay_trace].
    change (replay_event (GetCode code) (table (tt b)))
      with (Some (table (tt b))).
    cbv iota beta. rewrite Hlookup.
    exact (move_loop_replay _ _ _ _ _ IH _ _ _ _ _ _ Hloop).
Qed.

(** A call that returns has computed the code of its position first. *)
Lemma simulate_first_event fuel (b : board_obj B) color alpha beta v b'
      events :
  simulate fuel b color alpha beta = Done v b' events ->
  exists c rest,
    events = GetCode c :: rest /\ getCode (tt b) (pos b) = Ret c.
Proof.
  destruct fuel as [| fuel]; [discriminate |].
  cbn [simulate]. intros Hrun.
  destruct (getCode (tt b) (pos b)) as [code | e]; [| discriminate Hrun].
  exists code.
  destruct (truthy (lookup (tt b) code)).
  { injection Hrun as <- <- <-. eauto. }
  destruct (negb (evaluate_endgame (pos b) =? EMPTY)).
  { injection Hrun as <- <- <-. eauto. }
  match type of Hrun with
  | match ?loop with _ => _ end = _ =>
      destruct loop as [v' b'' loop_events | e |] eqn:Hloop;
      [| discriminate Hrun ..]
  end.
  injection Hrun as <- <- <-. cbn [app]. eauto.
Qed.

Lemma move_loop_children fuel code color opp beta :
  (forall (p : B) (move c : Z), undoLastMove (play_move p move c) = p) ->
  forall legal_moves alpha (b : board_obj B) v b' events,
    move_loop (simulate fuel) code color opp alpha beta legal_moves b
    = Done v b' events ->
    Forall (fun child =>
              exists c rest,
                snd child = GetCode c :: rest /\
                getCode (tt b) (play_move (pos b) (fst child) color) = Ret c)
           (children events).
Proof.
  intros undo_play.
  induction legal_moves as [| move rest IH]; intros alpha b v b' events Hrun.
  - cbn [move_loop] in Hrun. injection Hrun as <- <- <-. constructor.
  - cbn [move_loop] in Hrun.
    destruct (simulate fuel
                {| pos := play_move (pos b) move color; tt := tt b |}
                opp (- beta) (- alpha))
      as [r b2 inner | e |] eqn:Hcall; [| discriminate Hrun ..].
    destruct (simulate_first_event _ _ _ _ _ _ _ _ Hcall)
      as (c & inner' & Hinner & Hc).
    destruct (simulate_restores undo_play _ _ _ _ _ _ _ _ Hcall)
      as (Hpos2 & _ & Hzob2).
    cbn [pos tt] in Hc, Hpos2, Hzob2, Hrun.
    assert (Hfirst : exists c0 rest0,
               snd (move, inner) = GetCode c0 :: rest0 /\
               getCode (tt b) (play_move (pos b) (fst (move, inner)) color)
               = Ret c0) by (exists c, inner'; split; assumption).
    destruct (- r >=? beta).
    + injection Hrun as <- <- <-. cbn [children].
      constructor; [exact Hfirst | constructor].
    + match type of Hrun with
      | match ?loop with _ => _ end = _ =>
          destruct loop as [v5 b5 events5 | e |] eqn:Hloop;
          [| discriminate Hrun ..]
      end.
      injection Hrun as <- <- <-. cbn [app children].
      constructor; [exact Hfirst |].
      pose proof (IH _ _ _ _ _ Hloop) as Hrest. cbn [pos tt] in Hrest.
      rewrite Hpos2, undo_play in Hrest.
      refine (List.Forall_impl _ _ Hrest).
      intros child (c0 & rest0 & Hchild & Hcode0).
      exists c0, rest0. split; [exact Hchild |].
      rewrite <- Hcode0. apply getCode_zobrist.
      unfold store. cbn [snd zobrist]. symmetry. exact Hzob2.
Qed.

End ParentCodeFacts.

Section ParentCode.
Context {B : Type} `{GoBoard B}.

(** C2. In a call that reaches the move loop and returns, the code of the
    position is computed once, as the first event and so before any move is
    played; the events after the move generation are one round per move
    examined, in the order of the legal moves, and each round stores the
    negated value of its recursive call under that code of the parent
    position.  The stores reach the table: replaying the stores and lookups
    of the trace, those of the recursive calls included, on the dictionary
    the call was given succeeds and ends in the dictionary the call leaves,
    which holds under the parent code the negated value of the last
    recursive call.  When [undoLastMove] takes back the last [play_move],
    the code of every position can be computed and every legal move lowers
    a measure of the position, the call does return, and every recursive
    call begins by computing the code of the position its move led to,
    while its value is stored under the code of the parent. *)
Theorem simulate_stores_under_parent_code :
  (forall fuel (b : board_obj B) color alpha beta code v b' events,
      getCode (tt b) (pos b) = Ret code ->
      truthy (lookup (tt b) code) = false ->
      evaluate_endgame (pos b) = EMPTY ->
      simulate (S fuel) b color alpha beta = Done v b' events ->
      (exists loop_events later,
          events = [GetCode code; Lookup code (lookup (tt b) code);
                    EvaluateEndgame EMPTY;
                    GenerateLegalMoves color
                                       (generate_legal_moves (pos b) color)]
                     ++ loop_events /\
          rounds code color loop_events /\
          generate_legal_moves (pos b) color = plays events ++ later) /\
      codes events = [code] /\
      Forall (fun entry => fst entry = code) (stores events) /\
      replay_trace events (table (tt b)) = Some (table (tt b')) /\
      match last_returned events with
      | Some r => lookup (tt b') code = Some (- r)
      | None => b' = b
      end) /\
  (forall (measure : B -> nat) (b : board_obj B) color alpha beta code,
      (forall (p : B) (move c : Z), undoLastMove (play_move p move c) = p) ->
      (forall (p : B) (t : gmap Z Z),
          exists c,
            getCode {| table := t; zobrist := zobrist (tt b) |} p = Ret c) ->
      (forall (p : B) (c move : Z),
          In move (generate_legal_moves p c) ->
          (measure (play_move p move c) < measure p)%nat) ->
      getCode (tt b) (pos b) = Ret code ->
      truthy (lookup (tt b) code) = false ->
      evaluate_endgame (pos b) = EMPTY ->
      exists v b' events,
        simulate (S (measure (pos b))) b color alpha beta
        = Done v b' events /\
        Forall (fun entry => fst entry = code) (stores events) /\
        replay_trace events (table (tt b)) = Some (table (tt b')) /\
        match last_returned events with
        | Some r => lookup (tt b') code = Some (- r)
        | None => b' = b
        end /\
        Forall (fun child =>
                  exists c rest,
                    snd child = GetCode c :: rest /\
                    getCode (tt b) (play_move (pos b) (fst child) color)
                    = Ret c)
               (children events)).
Proof.
  assert (Hany : forall fuel (b : board_obj B) color alpha beta code v b'
                        events,
             getCode (tt b) (pos b) = Ret code ->
             truthy (lookup (tt b) code) = false ->
             evaluate_endgame (pos b) = EMPTY ->
             simulate (S fuel) b color alpha beta = Done v b' events ->
             (exists loop_events later,
                 events = [GetCode code; Lookup code (lookup (tt b) code);
                           EvaluateEndgame EMPTY;
                           GenerateLegalMoves
                             color (generate_legal_moves (pos b) color)]
                            ++ loop_events /\
                 rounds code color loop_events /\
                 generate_legal_moves (pos b) color = plays events ++ later) /\
             codes events = [code] /\
             Forall (fun entry => fst entry = code) (stores events) /\
             replay_trace events (table (tt b)) = Some (table (tt b')) /\
             match last_returned events with
             | Some r => lookup (tt b') code = Some (- r)
             | None => b' = b
             end).
  { intros fuel b color alpha beta code v b' events Hcode Hmiss Hopen Hrun.
    pose proof (simulate_replay _ _ _ _ _ _ _ _ Hrun) as Hreplay.
    pose proof (simulate_entry_is_last_child_aux
                  _ _ _ _ _ _ _ _ _ Hcode Hmiss Hopen Hrun) as Hlast.
    rewrite (simulate_expand _ _ _ _ _ _ Hcode Hmiss Hopen) in Hrun.
    destruct (move_loop (simulate fuel) code color (opponent color) alpha
                        beta (generate_legal_moves (pos b) color) b)
      as [v' b'' loop_events | e |] eqn:Hloop; [| discriminate Hrun ..].
    injection Hrun as <- <- <-.
    destruct (move_loop_rounds _ _ _ _ _ _ _ _ _ _ Hloop)
      as [Hrounds [later Hlater]].
    split; [| split; [| split; [| split]]].
    - exists loop_events, later.
      split; [reflexivity | split; [exact Hrounds | exact Hlater]].
    - cbn [app codes]. rewrite (rounds_codes _ _ _ Hrounds). reflexivity.
    - cbn [app stores]. exact (rounds_stores _ _ _ Hrounds).
    - exact Hreplay.
    - exact Hlast. }
  split; [exact Hany |].
  intros measure b color alpha beta code undo_play Hdefined Hlower
         Hcode Hmiss Hopen.
  destruct (simulate_returns undo_play measure (zobrist (tt b)) Hdefined
              Hlower (S (measure (pos b))) b color alpha beta)
    as (v & b' & events & Hrun); [reflexivity | lia |].
  exists v, b', events. split; [exact Hrun |].
  destruct (Hany _ _ _ _ _ _ _ _ _ Hcode Hmiss Hopen Hrun)
    as (_ & _ & Hstores & Hreplay & Hlast).
  split; [exact Hstores |]. split; [exact Hreplay |].
  split; [exact Hlast |].
  rewrite (simulate_expand _ _ _ _ _ _ Hcode Hmiss Hopen) in Hrun.
  destruct (move_loop (simulate (measure (pos b))) code color
                      (opponent color) alpha beta
                      (generate_legal_moves (pos b) color) b)
    as [v' b'' loop_events | e |] eqn:Hloop; [| discriminate Hrun ..].
  injection Hrun as <- <- <-. cbn [app children].
  exact (move_loop_children _ _ _ _ _ undo_play _ _ _ _ _ _ Hloop).
Qed.

End ParentCode.

(** ** The further properties on small boards *)

Lemma toy_zobrist_shape : zobrist_shape 2 (zobrist toy_tt).
Proof. apply (init_zobrist_shape _ 2). Qed.

(** A size 2 board whose flat array stops before the second row. *)
Lemma get_twoD_board_short_row_on_flat :
  get_twoD_board ((2%nat, [3; 3; 3; 3; 0; 0; 3]) : flat) = Raise ValueError.
Proof.
  apply (get_twoD_board_short_row ((2%nat, [3; 3; 3; 3; 0; 0; 3]) : flat) 1).
  - cbn. lia.
  - intros r Hr. assert (r = 0%nat) as -> by lia. cbn. lia.
  - vm_compute. discriminate.
  - vm_compute. discriminate.
Defined.

(** A size 2 board whose flat array holds 64-bit values, three of them
    outside the 32-bit range, and one whose values are colours. *)
Lemma get_twoD_board_rows_on_flat :
  get_twoD_board
    ((2%nat, [3; 3; 3; 3; 4294967296; 4294967297; 3; 2147483648; 2;
              3; 3; 3; 3]) : flat)
  = Ret [[0; 1]; [-2147483648; 2]] /\
  get_twoD_board ((2%nat, [3; 3; 3; 3; 1; 0; 3; 0; 2; 3; 3; 3; 3]) : flat)
  = Ret [[1; 0]; [0; 2]].
Proof.
  split.
  - refine (proj1 (proj1 (proj2 (get_twoD_board_rows
              ((2%nat, [3; 3; 3; 3; 4294967296; 4294967297; 3; 2147483648; 2;
                        3; 3; 3; 3]) : flat))) _)).
    intros r Hr. cbn in Hr |- *.
    assert (r = 0 \/ r = 1)%nat as [-> | ->] by lia; cbn; lia.
  - refine (proj2 (proj1 (proj2 (get_twoD_board_rows
              ((2%nat, [3; 3; 3; 3; 1; 0; 3; 0; 2; 3; 3; 3; 3]) : flat))) _)
              _).
    + intros r Hr. cbn in Hr |- *.
      assert (r = 0 \/ r = 1)%nat as [-> | ->] by lia; cbn; lia.
    + cbn [board flat_GoBoard snd].
      repeat constructor; vm_compute; discriminate.
Defined.

Lemma getCode_on_own_table_on_toy :
  getCode (store_all toy_tt [(9, 1)]) [(8, 1); (5, 2)]
  = Ret (board_code (zobrist (store_all toy_tt [(9, 1)])) 2
                    [[0; 2]; [0; 1]]) /\
  0 <= board_code (zobrist (store_all toy_tt [(9, 1)])) 2 [[0; 2]; [0; 1]]
    < 2 ^ 32.
Proof.
  refine (getCode_on_own_table ([(8, 1); (5, 2)] : toy) [[0; 2]; [0; 1]]
                               (fun n => 2 ^ Z.of_nat n - 1) [(9, 1)] _).
  reflexivity.
Defined.

Lemma getCode_empty_board_on_toy :
  getCode {| table := ∅; zobrist := [] |} ([] : toy) = Ret 0.
Proof.
  apply (getCode_empty_board _ ([] : toy) [[0; 0]; [0; 0]]).
  - reflexivity.
  - intros [| [| i]] [| [| j]]; reflexivity.
Defined.

Lemma getCode_one_cell_changed_on_toy :
  exists h h',
    getCode toy_tt ([(5, 2)] : toy) = Ret h /\
    getCode toy_tt ([(7, 1); (5, 2)] : toy) = Ret h' /\
    h' = Z.lxor (Z.lxor h (zobrist_number (zobrist toy_tt) 1 0
                                          (cell [[0; 2]; [0; 0]] 1 0)))
                (zobrist_number (zobrist toy_tt) 1 0 1) /\
    (cell [[0; 2]; [0; 0]] 1 0 = 0 ->
     h' = Z.lxor h (zobrist_number (zobrist toy_tt) 1 0 1) /\
     h = Z.lxor h' (zobrist_number (zobrist toy_tt) 1 0 1)).
Proof.
  refine (getCode_one_cell_changed toy_tt ([(5, 2)] : toy)
            ([(7, 1); (5, 2)] : toy) [[0; 2]; [0; 0]] 1 0 [0; 0] 1
            _ _ _ _ _ _).
  - reflexivity.
  - reflexivity.
  - reflexivity.
  - cbn. lia.
  - reflexivity.
  - exact toy_zobrist_shape.
Defined.

(** A border value inside the board is hashed as a white stone. *)
Lemma getCode_other_values_as_white_on_flat :
  exists h,
    getCode toy_tt
            ((2%nat, [3; 3; 3; 3; 1; 3; 3; 0; 2; 3; 3; 3; 3]) : flat) = Ret h /\
    getCode toy_tt
            ((2%nat, [3; 3; 3; 3; 1; 2; 3; 0; 2; 3; 3; 3; 3]) : flat) = Ret h.
Proof.
  refine (getCode_other_values_as_white toy_tt
            ((2%nat, [3; 3; 3; 3; 1; 3; 3; 0; 2; 3; 3; 3; 3]) : flat)
            ((2%nat, [3; 3; 3; 3; 1; 2; 3; 0; 2; 3; 3; 3; 3]) : flat)
            [[1; 3]; [0; 2]] _ _ _ _).
  - reflexivity.
  - reflexivity.
  - reflexivity.
  - exact toy_zobrist_shape.
Defined.

(** A table built for size 1 and a stone in the second row. *)
Lemma getCode_table_too_small_on_toy :
  getCode (TranspositionTable_init (fun _ => 5) 1) ([(8, 1)] : toy)
  = Raise IndexError.
Proof.
  apply (getCode_table_too_small _ ([(8, 1)] : toy) [[0; 0]; [0; 1]] 1 1 1).
  - reflexivity.
  - apply (init_zobrist_shape _ 1).
  - cbn. lia.
  - cbn. lia.
  - lia.
  - vm_compute. discriminate.
Defined.

Lemma rev_permutes (l : list Z) : Permutation (rev l) l.
Proof. apply Permutation_sym, Permutation_rev. Qed.

Lemma generate_random_move_pass_on_toy :
  (generate_random_move (fun _ _ _ => false) (@rev Z)
                        ([(8, 1); (5, 2); (7, 2); (4, 1)] : toy) BLACK true
   = PASS <->
   forall move,
     In move (get_empty_points ([(8, 1); (5, 2); (7, 2); (4, 1)] : toy)) ->
     is_legal ([(8, 1); (5, 2); (7, 2); (4, 1)] : toy) move BLACK = false \/
     (true = true /\ false = true)) /\
  generate_random_move (fun _ _ _ => false) (@rev Z)
                       ([(8, 1); (5, 2); (7, 2); (4, 1)] : toy) BLACK true
  = PASS.
Proof.
  pose proof (generate_random_move_pass
                (fun (_ : toy) _ _ => false) (@rev Z) rev_permutes
                ([(8, 1); (5, 2); (7, 2); (4, 1)] : toy) BLACK true)
    as [Hiff Hnone].
  split; [exact Hiff | apply Hnone; reflexivity].
Defined.

Lemma generate_random_move_sound_on_toy :
  generate_random_move (fun _ _ _ => false) (@rev Z)
                       ([(4, 2); (5, 1); (7, 1)] : toy) BLACK true
  = Some 8.
Proof.
  apply (proj2 (generate_random_move_sound
                  (fun (_ : toy) _ _ => false) (@rev Z) rev_permutes
                  ([(4, 2); (5, 1); (7, 1)] : toy) BLACK true)).
  - cbn. left. reflexivity.
  - reflexivity.
  - reflexivity.
  - intros move Hin _ _. cbn in Hin. destruct Hin as [<- | []]. reflexivity.
Defined.

(** The search from the position with one white stone, for black: both
    values are stored under 2, the code of that position, while the
    positions the two moves led to have the codes 6 and 18. *)
Lemma simulate_stores_under_parent_code_on_toy :
  (exists b' events,
      simulate 5 (toy_obj [(4, 2)] []) BLACK (-1) 1 = Done 1 b' events /\
      stores events = [(2, -1); (2, 1)] /\
      last_returned events = Some (-1) /\
      map_to_list (table (tt b'))
      = [(38, -1); (26, 1); (146, 1); (18, -1); (6, 1); (2, 1)] /\
      ((exists loop_events later,
           events = [GetCode 2; Lookup 2 None; EvaluateEndgame EMPTY;
                     GenerateLegalMoves BLACK [5; 7; 8]] ++ loop_events /\
           rounds 2 BLACK loop_events /\
           [5; 7; 8] = plays events ++ later) /\
       codes events = [2] /\
       Forall (fun entry => fst entry = 2) (stores events) /\
       replay_trace events ∅ = Some (table (tt b')) /\
       match last_returned events with
       | Some r => lookup (tt b') 2 = Some (- r)
       | None => b' = toy_obj [(4, 2)] []
       end)) /\
  (exists v b' events,
      simulate 4 (toy_obj [(4, 2)] []) BLACK (-1) 1 = Done v b' events /\
      Forall (fun entry => fst entry = 2) (stores events) /\
      replay_trace events ∅ = Some (table (tt b')) /\
      match last_returned events with
      | Some r => lookup (tt b') 2 = Some (- r)
      | None => b' = toy_obj [(4, 2)] []
      end /\
      Forall (fun child =>
                exists c rest,
                  snd child = GetCode c :: rest /\
                  getCode (tt (toy_obj [(4, 2)] []))
                          (play_move [(4, 2)] (fst child) BLACK)
                  = Ret c)
             (children events)).
Proof.
  split.
  - eexists _, _. split; [vm_compute; reflexivity |].
    split; [vm_compute; reflexivity |].
    split; [vm_compute; reflexivity |].
    split; [vm_compute; reflexivity |].
    refine (proj1 simulate_stores_under_parent_code
                  4%nat (toy_obj [(4, 2)] []) BLACK (-1) 1 2 _ _ _ _ _ _ _);
      vm_compute; reflexivity.
  - refine (proj2 simulate_stores_under_parent_code
                  toy_measure (toy_obj [(4, 2)] []) BLACK (-1) 1 2
                  toy_undo_play _ toy_move_lowers_measure _ _ _).
    + intros p t. apply toy_code_defined.
    + vm_compute. reflexivity.
    + vm_compute. reflexivity.
    + vm_compute. reflexivity.
Defined.

(** A full board without a winner. *)
Lemma simulate_no_legal_moves_on_toy :
  simulate 1 (toy_obj [(8, 1); (5, 2); (7, 2); (4, 1)] []) BLACK (-1) 1
  = Done (-1) (toy_obj [(8, 1); (5, 2); (7, 2); (4, 1)] [])
         [GetCode 105; Lookup 105 None; EvaluateEndgame EMPTY;
          GenerateLegalMoves BLACK []].
Proof.
  refine (simulate_no_legal_moves
            0 (toy_obj [(8, 1); (5, 2); (7, 2); (4, 1)] []) BLACK (-1) 1 105
            _ _ _ _).
  - vm_compute. reflexivity.
  - vm_compute. reflexivity.
  - vm_compute. reflexivity.
  - vm_compute. reflexivity.
Defined.

Lemma simulate_within_window_on_toy :
  exists v b' events,
    simulate 5 (toy_obj [(4, 2)] []) BLACK (-1) 1 = Done v b' events /\
    -1 <= v <= 1.
Proof.
  eexists _, _, _. split.
  - vm_compute. reflexivity.
  - refine (simulate_within_window
              4 (toy_obj [(4, 2)] []) BLACK (-1) 1 2 _ _ _ _ _ _ _ _).
    + vm_compute. reflexivity.
    + vm_compute. reflexivity.
    + vm_compute. reflexivity.
    + lia.
    + vm_compute. reflexivity.
Defined.

Lemma simulate_table_grows_on_toy :
  exists v b' events,
    simulate 5 (toy_obj [(4, 2)] [(6, 1); (77, -1)]) BLACK (-1) 1
    = Done v b' events /\
    keeps_entries (toy_obj [(4, 2)] [(6, 1); (77, -1)]) b' /\
    zobrist (tt b') = zobrist toy_tt.
Proof.
  eexists _, _, _. split.
  - vm_compute. reflexivity.
  - refine (simulate_table_grows
              5 (toy_obj [(4, 2)] [(6, 1); (77, -1)]) BLACK (-1) 1 _ _ _ _).
    vm_compute. reflexivity.
Defined.

Lemma simulate_entry_is_last_child_on_toy :
  exists b' events,
    simulate 5 (toy_obj [(7, 1)] []) BLACK (-2) (-1) = Done (-1) b' events /\
    match last_returned events with
    | Some r => lookup (tt b') 16 = Some (- r)
    | None => b' = toy_obj [(7, 1)] []
    end /\
    lookup (tt b') 16 = Some 1.
Proof.
  eexists _, _. split; [vm_compute; reflexivity |]. split.
  - match goal with
    | |- match last_returned ?events with
         | Some _ => lookup (tt ?b') _ = _
         | None => _
         end =>
        exact (@simulate_entry_is_last_child
                 toy toy_GoBoard
                 4 (toy_obj [(7, 1)] []) BLACK (-2) (-1) 16 (-1) b' events
                 ltac:(vm_compute; reflexivity) ltac:(vm_compute; reflexivity)
                 ltac:(vm_compute; reflexivity) ltac:(vm_compute; reflexivity))
    end.
  - vm_compute. reflexivity.
Defined.

(** The first search says -1 and the second, on the board object it left,
    says 1. *)
Lemma simulate_again_returns_last_child_on_toy :
  exists b' events,
    simulate 5 (toy_obj [(7, 1)] []) BLACK (-2) (-1) = Done (-1) b' events /\
    forall fuel' color' alpha' beta',
      simulate (S fuel') b' color' alpha' beta'
      = Done (- -1) b' [GetCode 16; Lookup 16 (Some (- -1))].
Proof.
  eexists _, _. split; [vm_compute; reflexivity |].
  refine (simulate_again_returns_last_child
            toy_undo_play 4 (toy_obj [(7, 1)] []) BLACK (-2) (-1) 16
            _ _ _ (-1) _ _ _ _ _ _).
  - vm_compute. reflexivity.
  - vm_compute. reflexivity.
  - vm_compute. reflexivity.
  - vm_compute. reflexivity.
  - vm_compute. reflexivity.
  - discriminate.
Defined.
